(** * Search suggestions: prefix trie, Levenshtein distance, spell suggester

    A shallow embedding of [Trie.py], [Spell.py] and [Search_Suggestions.py].

    Conventions of the embedding.
    - A Python [str] is a list of code points.  The alphabet is the 8-bit
      range (code points 0..255, i.e. ASCII plus Latin-1), on which
      [str.lower], [str.strip] and [str.split] are given by small tables.
    - A Python [int] is a [Z].
    - Indexing a list can raise; code that indexes lives in the monad [res].
    - A [dict] keyed by characters or lengths is a [gmap]; a [set] is a
      [gset] together with the order in which the interpreter iterates it.
    - Objects that the source mutates in place (the trie, the accumulator
      lists) are threaded through explicitly.
    - The interpreter's recursion limit and memory are not modelled: the
      recursive traversal of the trie is taken to any depth. *)

From stdpp Require Import gmap strings list fin_maps sorting.
From Stdlib Require Import Ascii ZArith.

Local Open Scope Z_scope.

(** ** Python strings *)

Definition str := list ascii.

(** A literal of the source. *)
Definition py (s : string) : str := String.list_ascii_of_string s.

(** [ord(c)]. *)
Definition ord (c : ascii) : nat := nat_of_ascii c.

(** [len(x)] as a Python integer. *)
Definition len {A} (l : list A) : Z := Z.of_nat (length l).

(** [c.isspace()] on code points below 256:
    TAB LF VT FF CR, FS GS RS US, SPACE, NEL (0x85) and NBSP (0xA0). *)
Definition is_space (c : ascii) : bool :=
  let n := ord c in
  ((9 <=? n) && (n <=? 13) || (28 <=? n) && (n <=? 32) ||
   (n =? 133) || (n =? 160))%nat.

(** Characters that [str.lower] changes on code points below 256:
    A-Z, and the Latin-1 capitals 0xC0-0xDE except the multiplication
    sign 0xD7. *)
Definition is_upper (c : ascii) : bool :=
  let n := ord c in
  ((65 <=? n) && (n <=? 90) ||
   (192 <=? n) && (n <=? 222) && negb (n =? 215))%nat.

Definition lower_char (c : ascii) : ascii :=
  if is_upper c then ascii_of_nat (ord c + 32) else c.

(** [s.lower()]. *)
Definition lower (s : str) : str := lower_char <$> s.

Fixpoint lstrip (s : str) : str :=
  match s with
  | [] => []
  | c :: s' => if is_space c then lstrip s' else s
  end.

Definition rstrip (s : str) : str := reverse (lstrip (reverse s)).

(** [s.strip()] without argument. *)
Definition strip (s : str) : str := rstrip (lstrip s).

(** [s.split()] without argument: maximal runs of non-space characters.
    [cur] is the token being read. *)
Fixpoint split_from (cur : str) (s : str) : list str :=
  match s with
  | [] => if bool_decide (cur = []) then [] else [cur]
  | c :: s' =>
      if is_space c
      then (if bool_decide (cur = []) then split_from [] s'
            else cur :: split_from [] s')
      else split_from (cur ++ [c]) s'
  end.

Definition split (s : str) : list str := split_from [] s.

(** Comparison of strings, as [<] on [str]: lexicographic on code points. *)
Fixpoint str_ltb (a b : str) : bool :=
  match a, b with
  | _, [] => false
  | [], _ :: _ => true
  | x :: a', y :: b' =>
      if bool_decide (ord x < ord y)%nat then true
      else if bool_decide (x = y) then str_ltb a' b'
      else false
  end.

Definition str_lt (a b : str) : Prop := str_ltb a b = true.
Definition str_le (a b : str) : Prop := a = b ∨ str_lt a b.

(** [l[:k]]: a negative bound counts from the end. *)
Definition slice_to {A} (l : list A) (k : Z) : list A :=
  if bool_decide (k < 0) then take (Z.to_nat (len l + k)) l
  else take (Z.to_nat k) l.

(** ** Exceptions *)

Inductive exn := IndexError.

Inductive res (A : Type) : Type :=
  | Ok (a : A)
  | Raise (e : exn).
Arguments Ok {A} a.
Arguments Raise {A} e.

Global Instance res_ret : MRet res := λ A a, Ok a.
Global Instance res_bind : MBind res := λ A B f m,
  match m with
  | Ok a => f a
  | Raise e => Raise e
  end.

(** [l[i]] for a non-negative index. *)
Definition index {A} (l : list A) (i : nat) : res A :=
  match l !! i with
  | Some x => Ok x
  | None => Raise IndexError
  end.

(** [l[-1]]. *)
Definition index_last {A} (l : list A) : res A :=
  match last l with
  | Some x => Ok x
  | None => Raise IndexError
  end.

(** A [for] loop whose body can raise, threading the loop state. *)
Fixpoint for_each {A S} (body : S → A → res S) (l : list A) (s : S) : res S :=
  match l with
  | [] => Ok s
  | x :: l' => s' ← body s x; for_each body l' s'
  end.

(** ** [levenshtein] (Spell.py 3-19, Search_Suggestions.py 57-71) *)

(** [range(n)] as the list of its items. *)
Definition range (n : Z) : list Z := seqZ 0 n.

(** [c1 != c2] used as an integer. *)
Definition neq_cost (c1 c2 : ascii) : Z := if bool_decide (c1 ≠ c2) then 1 else 0.

(** The inner loop [for j, c2 in enumerate(s2)], from index [j] on. *)
Fixpoint levenshtein_inner (c1 : ascii) (previous : list Z)
    (j : nat) (s2 : str) (current : list Z) : res (list Z) :=
  match s2 with
  | [] => Ok current
  | c2 :: s2' =>
      p1 ← index previous (j + 1);
      let ins := p1 + 1 in
      cj ← index current j;
      let dele := cj + 1 in
      p0 ← index previous j;
      let sub := p0 + neq_cost c1 c2 in
      levenshtein_inner c1 previous (S j) s2'
        (current ++ [Z.min ins (Z.min dele sub)])
  end.

(** The outer loop [for i, c1 in enumerate(s1)], from index [i] on. *)
Fixpoint levenshtein_outer (i : nat) (s1 s2 : str) (previous : list Z)
    : res (list Z) :=
  match s1 with
  | [] => Ok previous
  | c1 :: s1' =>
      current ← levenshtein_inner c1 previous 0 s2 [Z.of_nat i + 1];
      levenshtein_outer (S i) s1' s2 current
  end.

(** The body after the length test, reached with [len(s1) >= len(s2)]. *)
Definition levenshtein_rows (s1 s2 : str) : res Z :=
  if bool_decide (len s2 = 0) then Ok (len s1)
  else
    previous ← levenshtein_outer 0 s1 s2 (range (len s2 + 1));
    index_last previous.

(** The recursive call [levenshtein(s2, s1)] swaps the arguments once: in
    the callee [len(s1) < len(s2)] is false. *)
Definition levenshtein (s1 s2 : str) : res Z :=
  if bool_decide (len s1 < len s2) then levenshtein_rows s2 s1
  else levenshtein_rows s1 s2.

(** ** [TrieNode] and [Trie] (Trie.py 1-49, Search_Suggestions.py 7-50) *)

#[warnings="-register-all"]
Inductive TrieNode : Type := mkTrieNode {
  children : gmap ascii TrieNode;
  is_end_of_word : bool;
  word : option str }.

(** [TrieNode()]. *)
Definition TrieNode_new : TrieNode :=
  {| children := ∅; is_end_of_word := false; word := None |}.

Record Trie : Type := mkTrie { root : TrieNode }.

(** [Trie()]. *)
Definition Trie_new : Trie := {| root := TrieNode_new |}.

(** The loop of [insert] from [node] on, over the remaining characters,
    followed by the two assignments on the node reached.  [w] is the whole
    lowercased word.  The source updates the nodes in place; here the path
    is rebuilt. *)
Fixpoint insert_from (node : TrieNode) (chars : str) (w : str) : TrieNode :=
  match chars with
  | [] =>
      {| children := children node; is_end_of_word := true; word := Some w |}
  | char :: rest =>
      let child := default TrieNode_new (children node !! char) in
      {| children := <[char := insert_from child rest w]> (children node);
         is_end_of_word := is_end_of_word node;
         word := word node |}
  end.

Definition insert (self : Trie) (w : str) : Trie :=
  let w := lower w in
  {| root := insert_from (root self) w w |}.

(** The first loop of [get_prefix_matches]: [None] is the early
    [return []]. *)
Fixpoint walk (node : TrieNode) (prefix : str) : option TrieNode :=
  match prefix with
  | [] => Some node
  | char :: rest =>
      match children node !! char with
      | None => None
      | Some child => walk child rest
      end
  end.

(** Order of one-character strings. *)
Definition char_le (a b : ascii) : Prop := (ord a ≤ ord b)%nat.
Global Instance char_le_dec : RelDecision char_le :=
  λ a b, decide (ord a ≤ ord b)%nat.

(** [sorted(d)] for a dictionary keyed by characters.  The keys of a
    dictionary are distinct, so the sorted list does not depend on the
    sorting algorithm. *)
Definition sorted_keys {A} (d : gmap ascii A) : list ascii :=
  merge_sort char_le ((map_to_list d).*1).

(** The closure [dfs]: [limit] is captured, the list [result] it appends to
    is passed in and handed back.  The recursive calls are attached to the
    children inside the map, which keeps the recursion structural;
    [n.children[ch]] is then a lookup in [visit] (lemma [dfs_unfold] gives
    the equation with the lookup in [children n]). *)
Fixpoint dfs (limit : Z) (n : TrieNode) (current : str) (result : list str)
    {struct n} : list str :=
  if bool_decide (limit ≤ len result) then result
  else
    let result :=
      if is_end_of_word n then result ++ [current] else result in
    let visit := (λ child, dfs limit child) <$> children n in
    foldl (λ result ch,
             match visit !! ch with
             | Some go => go (current ++ [ch]) result
             | None => result
             end)
          result (sorted_keys (children n)).

Definition get_prefix_matches (self : Trie) (prefix : str) (limit : Z)
    : list str :=
  let prefix := lower prefix in
  match walk (root self) prefix with
  | None => []
  | Some node => slice_to (dfs limit node prefix []) limit
  end.

(** [insert_all] differs between the two files. *)
Module Trie_py.
(** Trie.py 21-23: every entry is inserted. *)
Definition insert_all (self : Trie) (words : list str) : Trie :=
  foldl insert self words.
End Trie_py.

Module Search_Suggestions.
(** Search_Suggestions.py 27-30: [if w.strip(): self.insert(w)]. *)
Definition insert_all (self : Trie) (words : list str) : Trie :=
  foldl (λ self w, if bool_decide (strip w ≠ []) then insert self w else self)
        self words.
End Search_Suggestions.

(** ** [SpellSuggester] (Spell.py 22-54, Search_Suggestions.py 74-98) *)

Record SpellSuggester : Type := mkSpellSuggester {
  vocab : gset str;
  max_dist : Z;
  len_buckets : gmap Z (list str) }.

(** [set(w.lower() for w in vocabulary if w.strip())]. *)
Definition vocab_of (vocabulary : list str) : gset str :=
  list_to_set (lower <$> filter (λ w, strip w ≠ []) vocabulary).

(** The interpreter iterates a set in an order of its own: each member
    once.  [order] is such an order for [s]. *)
Definition iterates (s : gset str) (order : list str) : Prop :=
  order ≡ₚ elements s.

(** [self.len_buckets[len(w)].append(w)] on a [defaultdict(list)]. *)
Definition bucket_append (buckets : gmap Z (list str)) (w : str)
    : gmap Z (list str) :=
  <[len w := default [] (buckets !! len w) ++ [w]]> buckets.

(** [__init__]; [order] is the order in which [for w in self.vocab] runs. *)
Definition SpellSuggester_init (vocabulary : list str) (max_dist : Z)
    (order : list str) : SpellSuggester :=
  {| vocab := vocab_of vocabulary;
     max_dist := max_dist;
     len_buckets := foldl bucket_append ∅ order |}.

(** The suggesters that [SpellSuggester(vocabulary, max_dist)] can return. *)
Definition constructed (vocabulary : list str) (md : Z) (s : SpellSuggester)
    : Prop :=
  ∃ order, iterates (vocab_of vocabulary) order
           ∧ s = SpellSuggester_init vocabulary md order.

(** Order of the sort keys [(dist, term)]: tuples compare lexicographically. *)
Definition key_le (x y : Z * str) : Prop :=
  x.1 < y.1 ∨ (x.1 = y.1 ∧ str_le x.2 y.2).

Global Instance str_le_dec : RelDecision str_le.
Proof. intros a b. unfold str_le, str_lt. apply _. Defined.
Global Instance key_le_dec : RelDecision key_le.
Proof. intros x y. unfold key_le. apply _. Defined.

(** [range(a, b)]. *)
Definition range2 (a b : Z) : list Z := seqZ a (b - a).

(** The body of [for term in self.len_buckets[length]]. *)
Definition suggest_term (self : SpellSuggester) (w : str)
    (candidates : list (Z * str)) (term : str) : res (list (Z * str)) :=
  skip ← (if bool_decide (term = []) then Ok false
          else t0 ← index term 0; w0 ← index w 0; Ok (bool_decide (t0 ≠ w0)));
  if (skip : bool) then Ok candidates
  else
    dist ← levenshtein w term;
    if bool_decide (dist ≤ max_dist self)
    then Ok (candidates ++ [(dist, term)])
    else Ok candidates.

(** The body of [for length in range(...)]. *)
Definition suggest_length (self : SpellSuggester) (w : str)
    (candidates : list (Z * str)) (length : Z) : res (list (Z * str)) :=
  match len_buckets self !! length with
  | None => Ok candidates
  | Some bucket => for_each (suggest_term self w) bucket candidates
  end.

(** [list.sort] is stable; the keys here are the elements themselves and
    their order is total and antisymmetric, so the sorted list is the only
    sorted arrangement of the candidates. *)
Definition suggest (self : SpellSuggester) (w : str) (top_k : Z)
    : res (list str) :=
  let w := strip (lower w) in
  if bool_decide (w = []) || bool_decide (w ∈ vocab self) then Ok []
  else
    let wlen := len w in
    candidates ← for_each (suggest_length self w)
                   (range2 (Z.max 1 (wlen - 1)) (wlen + 2)) [];
    let candidates := merge_sort key_le candidates in
    Ok (slice_to (candidates.*2) top_k).

(** ** [handle_input] (Search_Suggestions.py 105-137)

    The function prints; what it prints is determined by the stripped text
    and the two lists, which are returned here.  [None] is the early
    [return]. *)

Record Suggestions : Type := mkSuggestions {
  typed : str;
  auto_suggestions : list str;
  spell_suggestions : list str }.

Definition space : ascii := " "%char.

Definition handle_input (text : str) (trie : Trie) (suggester : SpellSuggester)
    : res (option Suggestions) :=
  let text := strip text in
  if bool_decide (text = []) then Ok None
  else
    let words := split text in
    let last_word := default [] (last words) in
    let auto_suggestions := get_prefix_matches trie last_word 6 in
    spell_suggestions ←
      (if bool_decide (3 ≤ len last_word)
          && (bool_decide (text = []) || bool_decide (last text ≠ Some space))
       then suggest suggester last_word 3
       else Ok []);
    Ok (Some {| typed := text;
                auto_suggestions := auto_suggestions;
                spell_suggestions := spell_suggestions |}).

(** ** The session loop (Search_Suggestions.py 144-164)

    The lines typed by the user are given as a list; [input] raises
    [EOFError] when they run out.  As for [handle_input], what is printed
    for a line is represented by what [handle_input] computed. *)

Inductive exit : Type :=
  | Bye
  | EOFError
  | Uncaught (e : exn).

Definition sample_vocabulary : list str :=
  [py "machine"; py "learning"; py "macbook"; py "neural"; py "network";
   py "neuron"; py "natural"; py "language"; py "processing"; py "marine";
   py "medicine"; py "marching"; py "model"; py "deep"; py "learning";
   py "data"; py "science"; py "algorithm"].

(** [user_input.lower() in ("quit", "exit", "q")]. *)
Definition is_quit (user_input : str) : bool :=
  bool_decide (lower user_input ∈ [py "quit"; py "exit"; py "q"]).

(** The [while True] loop. *)
Fixpoint main_loop (trie : Trie) (spell : SpellSuggester) (lines : list str)
    : list (option Suggestions) * exit :=
  match lines with
  | [] => ([], EOFError)
  | line :: rest =>
      let user_input := strip line in
      if is_quit user_input then ([], Bye)
      else
        match handle_input user_input trie spell with
        | Raise e => ([], Uncaught e)
        | Ok shown =>
            let '(later, e) := main_loop trie spell rest in
            (shown :: later, e)
        end
  end.

(** The script; [order] is the iteration order of the vocabulary set. *)
Definition main (order : list str) (lines : list str)
    : list (option Suggestions) * exit :=
  let trie := Search_Suggestions.insert_all Trie_new sample_vocabulary in
  let spell := SpellSuggester_init sample_vocabulary 2 order in
  main_loop trie spell lines.

(** ** Reference notions used in the statements and proofs *)

(** The edit-distance recurrence on two strings read from their heads. *)
Fixpoint ed (a b : str) : Z :=
  match a with
  | [] => len b
  | x :: a' =>
      (fix ed_a (b : str) : Z :=
         match b with
         | [] => len a
         | y :: b' =>
             Z.min (ed a' b + 1)
                   (Z.min (ed_a b' + 1) (ed a' b' + neq_cost x y))
         end) b
  end.

(** Row of the table for the consumed part of [s1], held reversed in [ra]:
    entry [j] is the distance to the first [j] characters of [s2]. *)
Definition row_upto (ra s2 : str) (n : nat) : list Z :=
  (λ j, ed ra (reverse (take j s2))) <$> seq 0 (S n).

Definition row (ra s2 : str) : list Z := row_upto ra s2 (length s2).

(** Number of nodes of a subtree; the measure for induction on tries. *)
Fixpoint node_size (n : TrieNode) : nat :=
  S (map_fold (λ _ child acc, node_size child + acc)%nat 0%nat (children n)).

(** The whole traversal that [dfs] cuts short: a node's own path if it is
    terminal, then the subtrees in the order of their characters. *)
Fixpoint collect (n : TrieNode) (current : str) {struct n} : list str :=
  (if is_end_of_word n then [current] else []) ++
  let visit := (λ child, collect child) <$> children n in
  sorted_keys (children n) ≫=
    (λ ch, match visit !! ch with
           | Some go => go (current ++ [ch])
           | None => []
           end).

(** Every terminal path below the lowercased prefix, in traversal order. *)
Definition completions (self : Trie) (prefix : str) : list str :=
  match walk (root self) (lower prefix) with
  | None => []
  | Some node => collect node (lower prefix)
  end.

(** [path] leads from [n] to a node carrying the end-of-word mark. *)
Definition terminal_at (n : TrieNode) (path : str) : Prop :=
  ∃ node, walk n path = Some node ∧ is_end_of_word node = true.

(** Below a node reached by [path], every terminal node stores its own
    path from the root, and that path satisfies [Q]. *)
Definition stores_paths (Q : str → Prop) (path : str) (n : TrieNode) : Prop :=
  ∀ suffix node,
    walk n suffix = Some node → is_end_of_word node = true →
    word node = Some (path ++ suffix) ∧ Q (path ++ suffix).

(** No character of [w] is changed by [lower]. *)
Definition is_lowercase (w : str) : Prop :=
  Forall (λ c, is_upper c = false) w.

(** The value [levenshtein] returns (lemma [levenshtein_ed]). *)
Definition distance (a b : str) : Z := ed (reverse a) (reverse b).

(** A term of a bucket passes the two tests of the loop body: the
    first-letter filter and the distance threshold. *)
Definition keeps (md : Z) (w term : str) : Prop :=
  (term = [] ∨ head term = head w) ∧ distance w term ≤ md.

Global Instance keeps_dec md w term : Decision (keeps md w term).
Proof. unfold keeps. apply _. Defined.

(** The pairs [(dist, term)] appended for the terms of [l]. *)
Definition scored (w : str) (l : list str) : list (Z * str) :=
  (λ term, (distance w term, term)) <$> l.

(** The candidates gathered by the two loops, for a normalized query. *)
Definition gathered (self : SpellSuggester) (w : str) : list (Z * str) :=
  range2 (Z.max 1 (len w - 1)) (len w + 2) ≫=
    (λ length, scored w (filter (keeps (max_dist self) w)
                           (default [] (len_buckets self !! length)))).

(** The candidate terms in the words of the specification: vocabulary terms
    of a length between [max(1, len(w) - 1)] and [len(w) + 1], with the
    first character of [w], within [maxDist] of [w]. *)
Definition is_candidate (maxDist : Z) (w term : str) : Prop :=
  (Z.max 1 (len w - 1) ≤ len term ≤ len w + 1)
  ∧ head term = head w
  ∧ distance w term ≤ maxDist.

Global Instance is_candidate_dec maxDist w term :
  Decision (is_candidate maxDist w term).
Proof. unfold is_candidate. apply _. Defined.

(** The candidates sorted ascending by (distance, term), cut to the first
    [topK]; [w] is the raw query. *)
Definition suggest_spec (V : gset str) (maxDist : Z) (w : str) (topK : nat)
    : list str :=
  let w' := strip (lower w) in
  let candidates := filter (is_candidate maxDist w') (elements V) in
  take topK ((merge_sort key_le (scored w' candidates)).*2).

(** The candidates for the normalized query [w], in the order of the
    sort. *)
Definition ranked (V : gset str) (md : Z) (w : str) : list str :=
  (merge_sort key_le (scored w (filter (is_candidate md w) (elements V)))).*2.

(** [a] is ranked before [b] among the suggestions for the normalized
    query [w]: a smaller distance, or the same distance and a smaller term. *)
Definition ranks_before (w a b : str) : Prop :=
  ∃ da db, levenshtein w a = Ok da ∧ levenshtein w b = Ok db
           ∧ (da < db ∨ (da = db ∧ str_lt a b)).

(** * Strings *)

Section strings.

Lemma len_nil {A} : len (@nil A) = 0.
Proof. reflexivity. Qed.

Lemma len_cons {A} (x : A) l : len (x :: l) = len l + 1.
Proof. unfold len. simpl. lia. Qed.

Lemma len_app {A} (l k : list A) : len (l ++ k) = len l + len k.
Proof. unfold len. rewrite length_app. lia. Qed.

Lemma len_nonneg {A} (l : list A) : 0 ≤ len l.
Proof. unfold len. lia. Qed.

Lemma len_zero {A} (l : list A) : len l = 0 ↔ l = [].
Proof. unfold len. destruct l; simpl; split; intros; try done; lia. Qed.

Lemma len_reverse {A} (l : list A) : len (reverse l) = len l.
Proof. unfold len. by rewrite length_reverse. Qed.

End strings.

(** * Levenshtein distance *)

Section levenshtein.

Lemma ed_nil_r a : ed a [] = len a.
Proof. by destruct a. Qed.

Lemma ed_cons_cons x y a b :
  ed (x :: a) (y :: b) =
  Z.min (ed a (y :: b) + 1) (Z.min (ed (x :: a) b + 1) (ed a b + neq_cost x y)).
Proof. reflexivity. Qed.

Lemma neq_cost_sym x y : neq_cost x y = neq_cost y x.
Proof. unfold neq_cost. repeat case_bool_decide; congruence. Qed.

Lemma neq_cost_range x y : 0 ≤ neq_cost x y ≤ 1.
Proof. unfold neq_cost. case_bool_decide; lia. Qed.

Lemma neq_cost_diag x : neq_cost x x = 0.
Proof. unfold neq_cost. by case_bool_decide. Qed.

Lemma ed_sym a b : ed a b = ed b a.
Proof.
  revert b. induction a as [|x a IHa]; intros b.
  - simpl. by rewrite ed_nil_r.
  - induction b as [|y b IHb].
    + by rewrite ed_nil_r.
    + rewrite !ed_cons_cons, IHb, (IHa (y :: b)), (IHa b), (neq_cost_sym x y).
      lia.
Qed.

Lemma ed_nonneg a b : 0 ≤ ed a b.
Proof.
  revert b. induction a as [|x a IHa]; intros b.
  - simpl. apply len_nonneg.
  - induction b as [|y b IHb].
    + rewrite ed_nil_r. apply len_nonneg.
    + rewrite ed_cons_cons.
      pose proof (IHa (y :: b)). pose proof (IHa b).
      pose proof (neq_cost_range x y). lia.
Qed.

Lemma ed_diag a : ed a a = 0.
Proof.
  induction a as [|x a IH]; [done|].
  rewrite ed_cons_cons, IH, neq_cost_diag.
  pose proof (ed_nonneg a (x :: a)). pose proof (ed_nonneg (x :: a) a). lia.
Qed.

Lemma ed_len_diff a b : Z.abs (len a - len b) ≤ ed a b.
Proof.
  revert b. induction a as [|x a IHa]; intros b.
  - simpl. rewrite len_nil. pose proof (len_nonneg b). lia.
  - induction b as [|y b IHb].
    + rewrite ed_nil_r, len_nil. pose proof (len_nonneg (x :: a)). lia.
    + rewrite ed_cons_cons.
      pose proof (IHa (y :: b)) as H1. pose proof (IHa b) as H2.
      pose proof (neq_cost_range x y).
      rewrite !len_cons in *. lia.
Qed.

(** The table rows. *)

Lemma length_row_upto ra s2 n : length (row_upto ra s2 n) = S n.
Proof. unfold row_upto. by rewrite length_fmap, length_seq. Qed.

Lemma lookup_row_upto ra s2 n j :
  (j ≤ n)%nat → row_upto ra s2 n !! j = Some (ed ra (reverse (take j s2))).
Proof.
  intros Hj. unfold row_upto.
  rewrite list_lookup_fmap, lookup_seq_lt by lia. reflexivity.
Qed.

Lemma lookup_row ra s2 j :
  (j ≤ length s2)%nat → row ra s2 !! j = Some (ed ra (reverse (take j s2))).
Proof. apply lookup_row_upto. Qed.

Lemma row_upto_S ra s2 n :
  row_upto ra s2 (S n) =
  row_upto ra s2 n ++ [ed ra (reverse (take (S n) s2))].
Proof.
  unfold row_upto. rewrite (seq_S (S n)), fmap_app. reflexivity.
Qed.

Lemma range_row s2 : range (len s2 + 1) = row [] s2.
Proof.
  unfold range, row, row_upto, seqZ, len.
  replace (Z.to_nat (Z.of_nat (length s2) + 1)) with (S (length s2)) by lia.
  apply list_fmap_ext. intros i j Hj.
  apply lookup_seq in Hj as [-> Hlt]. simpl.
  unfold len. rewrite length_reverse, length_take. lia.
Qed.

Lemma last_row ra s2 : last (row ra s2) = Some (ed ra (reverse s2)).
Proof.
  unfold row. destruct (length s2) as [|n] eqn:Hn.
  - destruct s2; [|done]. reflexivity.
  - rewrite row_upto_S, last_snoc, <- Hn, firstn_all. reflexivity.
Qed.

Lemma levenshtein_inner_row c1 ra s2 rest pre :
  s2 = pre ++ rest →
  levenshtein_inner c1 (row ra s2) (length pre) rest
    (row_upto (c1 :: ra) s2 (length pre))
  = Ok (row (c1 :: ra) s2).
Proof.
  revert pre. induction rest as [|c2 rest IH]; intros pre Hs2.
  - simpl. rewrite app_nil_r in Hs2. subst pre. reflexivity.
  - assert (Hlen : length s2 = (length pre + S (length rest))%nat).
    { subst s2. rewrite length_app. reflexivity. }
    simpl. unfold index.
    rewrite !lookup_row by lia. rewrite lookup_row_upto by lia. simpl.
    specialize (IH (pre ++ [c2])).
    rewrite length_app in IH. simpl in IH.
    replace (length pre + 1)%nat with (S (length pre)) in * by lia.
    rewrite row_upto_S in IH. rewrite <- IH.
    2:{ by rewrite <- app_assoc. }
    do 3 f_equal.
    assert (Htake : take (S (length pre)) s2 = pre ++ [c2]).
    { subst s2. rewrite (cons_middle c2), app_assoc.
      apply take_app_length'. rewrite length_app. simpl. lia. }
    assert (Htake0 : take (length pre) s2 = pre).
    { subst s2. apply take_app_length. }
    rewrite Htake, Htake0, reverse_snoc, ed_cons_cons. reflexivity.
Qed.

Lemma levenshtein_outer_row s1 s2 ra :
  levenshtein_outer (length ra) s1 s2 (row ra s2)
  = Ok (row (reverse s1 ++ ra) s2).
Proof.
  revert ra. induction s1 as [|c1 s1 IH]; intros ra; [done|].
  simpl.
  assert (Hstart : [Z.of_nat (length ra) + 1] = row_upto (c1 :: ra) s2 0).
  { unfold row_upto. simpl. rewrite len_cons. reflexivity. }
  rewrite Hstart.
  pose proof (levenshtein_inner_row c1 ra s2 s2 [] eq_refl) as Hinner.
  simpl in Hinner. rewrite Hinner. simpl.
  pose proof (IH (c1 :: ra)) as Hnext. simpl in Hnext.
  rewrite Hnext, reverse_cons, <- app_assoc. reflexivity.
Qed.

Lemma levenshtein_rows_ed s1 s2 :
  levenshtein_rows s1 s2 = Ok (ed (reverse s1) (reverse s2)).
Proof.
  unfold levenshtein_rows. case_bool_decide as Hz.
  - apply len_zero in Hz. subst s2.
    by rewrite reverse_nil, ed_nil_r, len_reverse.
  - rewrite range_row.
    pose proof (levenshtein_outer_row s1 s2 []) as Hrows.
    simpl in Hrows. rewrite Hrows. simpl.
    unfold index_last. rewrite app_nil_r, last_row. reflexivity.
Qed.

(** [levenshtein] returns, and returns the value of the recurrence on the
    reversed arguments, whichever argument is the longer. *)
Lemma levenshtein_ed s1 s2 :
  levenshtein s1 s2 = Ok (ed (reverse s1) (reverse s2)).
Proof.
  unfold levenshtein. case_bool_decide.
  - rewrite levenshtein_rows_ed, ed_sym. reflexivity.
  - apply levenshtein_rows_ed.
Qed.

(** The recursive equation of the source function. *)
Lemma levenshtein_unfold s1 s2 :
  levenshtein s1 s2 =
  if bool_decide (len s1 < len s2) then levenshtein s2 s1
  else levenshtein_rows s1 s2.
Proof.
  unfold levenshtein. repeat case_bool_decide; try done; lia.
Qed.

End levenshtein.

(** * Orders on characters, strings and sort keys *)

Section orders.

Lemma ord_inj a b : ord a = ord b → a = b.
Proof.
  unfold ord. intros H.
  rewrite <- (ascii_nat_embedding a), <- (ascii_nat_embedding b).
  by rewrite H.
Qed.

Global Instance char_le_trans : Transitive char_le.
Proof. unfold char_le. intros a b c. lia. Qed.

Global Instance char_le_total : Total char_le.
Proof. unfold char_le. intros a b. lia. Qed.

Global Instance char_le_antisym : AntiSymm (=) char_le.
Proof. unfold char_le. intros a b ? ?. apply ord_inj. lia. Qed.

Lemma str_lt_nil_cons y b : str_lt [] (y :: b).
Proof. reflexivity. Qed.

Lemma str_lt_nil_r a : ¬ str_lt a [].
Proof. unfold str_lt. by destruct a. Qed.

Lemma str_lt_cons_cons x y a b :
  str_lt (x :: a) (y :: b) ↔ (ord x < ord y)%nat ∨ (x = y ∧ str_lt a b).
Proof.
  unfold str_lt. simpl. repeat case_bool_decide; subst; split; intros;
    try done; try tauto; try (destruct_or?; destruct_and?; subst; done || lia).
Qed.

Lemma str_lt_irrefl a : ¬ str_lt a a.
Proof.
  induction a as [|x a IH]; [apply str_lt_nil_r|].
  rewrite str_lt_cons_cons. intros [?|[_ ?]]; [lia|done].
Qed.

Lemma str_lt_trans a b c : str_lt a b → str_lt b c → str_lt a c.
Proof.
  revert b c. induction a as [|x a IH]; intros [|y b] [|z c];
    try done; try (by intros ?%str_lt_nil_r); try (by intros _ ?%str_lt_nil_r).
  rewrite !str_lt_cons_cons.
  intros [?|[-> ?]] [?|[-> ?]]; try (left; lia).
  right. split; [done|]. by eapply IH.
Qed.

Lemma str_lt_trichotomy a b : str_lt a b ∨ a = b ∨ str_lt b a.
Proof.
  revert b. induction a as [|x a IH]; intros [|y b].
  - by right; left.
  - by left.
  - by right; right.
  - rewrite !str_lt_cons_cons.
    destruct (lt_eq_lt_dec (ord x) (ord y)) as [[?|Heq]|?].
    + by left; left.
    + apply ord_inj in Heq as ->.
      destruct (IH b) as [?|[->|?]]; [left|right; left|right; right]; auto.
    + by right; right; left.
Qed.

(** All strings that extend [p] by [x] come before those that extend it by
    a greater [y]. *)
Lemma str_lt_app_diff p x y a b :
  (ord x < ord y)%nat → str_lt (p ++ x :: a) (p ++ y :: b).
Proof.
  intros Hxy. induction p as [|c p IH]; simpl.
  - apply str_lt_cons_cons. by left.
  - apply str_lt_cons_cons. by right.
Qed.

Lemma str_lt_app_proper p x a : str_lt p (p ++ x :: a).
Proof.
  induction p as [|c p IH]; simpl; [done|].
  apply str_lt_cons_cons. by right.
Qed.

Global Instance str_le_refl : Reflexive str_le.
Proof. intros a. by left. Qed.

Global Instance str_le_trans : Transitive str_le.
Proof.
  intros a b c [->|Hab] [->|Hbc]; [by left|by right|by right|].
  right. by eapply str_lt_trans.
Qed.

Global Instance str_le_total : Total str_le.
Proof.
  intros a b. destruct (str_lt_trichotomy a b) as [?|[->|?]].
  - left. by right.
  - left. by left.
  - right. by right.
Qed.

Global Instance str_le_antisym : AntiSymm (=) str_le.
Proof.
  intros a b [->|Hab] [Heq|Hba]; try done.
  destruct (str_lt_irrefl a). by eapply str_lt_trans.
Qed.

Global Instance key_le_trans : Transitive key_le.
Proof.
  intros [d1 t1] [d2 t2] [d3 t3]. unfold key_le. simpl.
  intros [?|[-> H12]] [?|[-> H23]]; try (left; lia).
  right. split; [done|]. by etrans.
Qed.

Global Instance key_le_total : Total key_le.
Proof.
  intros [d1 t1] [d2 t2]. unfold key_le. simpl.
  destruct (Z.lt_trichotomy d1 d2) as [?|[->|?]]; [by left; left| |by right; left].
  destruct (total str_le t1 t2); [left|right]; by right.
Qed.

Global Instance key_le_antisym : AntiSymm (=) key_le.
Proof.
  intros [d1 t1] [d2 t2]. unfold key_le. simpl.
  intros [?|[-> H12]] [?|[? H21]]; try lia.
  f_equal. by apply (anti_symm str_le).
Qed.

(** A sort by an antisymmetric total order depends only on the elements. *)
Lemma merge_sort_perm {A} (R : relation A) `{!RelDecision R}
    `{!Transitive R, !Total R, !AntiSymm (=) R} (l k : list A) :
  l ≡ₚ k → merge_sort R l = merge_sort R k.
Proof.
  intros Hlk. apply (StronglySorted_unique R).
  - by apply StronglySorted_merge_sort.
  - by apply StronglySorted_merge_sort.
  - by rewrite !merge_sort_Permutation.
Qed.

End orders.

(** * The trie *)

Section trie.

Lemma node_size_child n ch child :
  children n !! ch = Some child → (node_size child < node_size n)%nat.
Proof.
  destruct n as [m e w]. simpl. intros Hch.
  rewrite <- (insert_delete_id m ch child Hch).
  rewrite map_fold_insert_L.
  - lia.
  - intros. lia.
  - apply lookup_delete_eq.
Qed.

(** Induction on a trie: a property of a node follows from that of all its
    children. *)
Lemma TrieNode_nested_ind (P : TrieNode → Prop) :
  (∀ n, (∀ ch child, children n !! ch = Some child → P child) → P n) →
  ∀ n, P n.
Proof.
  intros Hstep n.
  remember (node_size n) as k eqn:Hk. revert n Hk.
  induction (lt_wf k) as [k _ IH]. intros n ->.
  apply Hstep. intros ch child Hch.
  eapply IH; [|reflexivity]. by eapply node_size_child.
Qed.

Lemma foldl_ext_in {A B} (f g : A → B → A) (l : list B) (a : A) :
  (∀ a x, x ∈ l → f a x = g a x) → foldl f a l = foldl g a l.
Proof.
  revert a. induction l as [|x l IH]; intros a Hfg; [done|].
  simpl. rewrite Hfg by left. apply IH. intros. apply Hfg. by right.
Qed.

(** [sorted(d)] lists the keys of [d], each once, in increasing order. *)
Lemma elem_of_sorted_keys {A} (d : gmap ascii A) ch :
  ch ∈ sorted_keys d ↔ is_Some (d !! ch).
Proof.
  unfold sorted_keys. rewrite merge_sort_Permutation, list_elem_of_fmap.
  split.
  - intros [[k x] [-> Hin]]. apply elem_of_map_to_list in Hin. by eexists.
  - intros [x Hx]. exists (ch, x). split; [done|].
    by apply elem_of_map_to_list.
Qed.

Lemma StronglySorted_NoDup_strict {A} (R S : relation A) (l : list A) :
  (∀ a b, R a b → a ≠ b → S a b) →
  StronglySorted R l → NoDup l → StronglySorted S l.
Proof.
  intros HRS. induction 1 as [|x l Hl IH Hx]; intros Hnd; [constructor|].
  apply NoDup_cons in Hnd as [Hnotin Hnd].
  constructor; [by apply IH|].
  rewrite Forall_forall in Hx |- *. intros y Hy.
  apply HRS; [by apply Hx|]. intros ->. done.
Qed.

Lemma sorted_keys_strict {A} (d : gmap ascii A) :
  StronglySorted (λ a b, (ord a < ord b)%nat) (sorted_keys d).
Proof.
  apply (StronglySorted_NoDup_strict char_le).
  - intros a b Hle Hne. unfold char_le in Hle.
    destruct (decide (ord a = ord b)) as [Heq%ord_inj|]; [done|lia].
  - apply StronglySorted_merge_sort; apply _.
  - unfold sorted_keys. rewrite merge_sort_Permutation.
    apply NoDup_fst_map_to_list.
Qed.

(** The source form of [dfs]: each child is looked up in [n.children]. *)
Lemma dfs_unfold limit n current result :
  dfs limit n current result =
  if bool_decide (limit ≤ len result) then result
  else
    foldl (λ result ch,
             match children n !! ch with
             | Some child => dfs limit child (current ++ [ch]) result
             | None => result
             end)
          (if is_end_of_word n then result ++ [current] else result)
          (sorted_keys (children n)).
Proof.
  destruct n as [m e w]. simpl. case_bool_decide; [done|].
  apply foldl_ext_in. intros acc ch _.
  rewrite lookup_fmap. by destruct (m !! ch).
Qed.

Lemma collect_unfold n current :
  collect n current =
  (if is_end_of_word n then [current] else []) ++
  sorted_keys (children n) ≫=
    (λ ch, match children n !! ch with
           | Some child => collect child (current ++ [ch])
           | None => []
           end).
Proof.
  destruct n as [m e w]. simpl. f_equal.
  generalize (sorted_keys m). intros keys.
  induction keys as [|ch keys IH]; [done|].
  rewrite !bind_cons, IH, lookup_fmap. by destruct (m !! ch).
Qed.

(** A loop that appends to [acc] what still fits below [limit]. *)
Lemma foldl_take_bind {K} (limit : Z) (F : list str → K → list str)
    (G : K → list str) (keys : list K) (acc : list str) :
  (∀ acc ch, ch ∈ keys →
     F acc ch = acc ++ take (Z.to_nat (limit - len acc)) (G ch)) →
  foldl F acc keys = acc ++ take (Z.to_nat (limit - len acc)) (keys ≫= G).
Proof.
  revert acc. induction keys as [|ch keys IH]; intros acc HF.
  - simpl. by rewrite take_nil, app_nil_r.
  - rewrite bind_cons. cbn [foldl]. rewrite HF by left. rewrite IH.
    2:{ intros. apply HF. by right. }
    rewrite take_app, <- app_assoc. do 3 f_equal.
    rewrite len_app. unfold len. rewrite length_take. lia.
Qed.

(** [dfs] appends to [result] the first words of the whole traversal, as
    many as still fit below [limit]. *)
Lemma dfs_collect limit n :
  ∀ current result,
    dfs limit n current result =
    result ++ take (Z.to_nat (limit - len result)) (collect n current).
Proof.
  induction n as [n IH] using TrieNode_nested_ind. intros current result.
  rewrite dfs_unfold. case_bool_decide as Hfull.
  - replace (Z.to_nat (limit - len result)) with 0%nat by lia.
    by rewrite take_0, app_nil_r.
  - rewrite (foldl_take_bind limit _
      (λ ch, match children n !! ch with
             | Some child => collect child (current ++ [ch])
             | None => []
             end)).
    + rewrite collect_unfold. destruct (is_end_of_word n); simpl.
      * rewrite <- app_assoc. f_equal. rewrite len_app, len_cons, len_nil.
        replace (Z.to_nat (limit - len result))
          with (S (Z.to_nat (limit - (len result + (0 + 1))))) by lia.
        reflexivity.
      * reflexivity.
    + intros acc ch _. destruct (children n !! ch) as [child|] eqn:Hch.
      * by eapply IH.
      * by rewrite take_nil, app_nil_r.
Qed.

Lemma slice_to_take {A} (l : list A) (limit : Z) :
  slice_to (take (Z.to_nat limit) l) limit = take (Z.to_nat limit) l.
Proof.
  unfold slice_to. case_bool_decide.
  - replace (Z.to_nat limit) with 0%nat by lia. by rewrite take_0, take_nil.
  - rewrite take_take. f_equal. lia.
Qed.

(** [get_prefix_matches] returns the first [limit] completions; none for a
    negative [limit]. *)
Lemma get_prefix_matches_take self prefix limit :
  get_prefix_matches self prefix limit =
  take (Z.to_nat limit) (completions self prefix).
Proof.
  unfold get_prefix_matches, completions.
  destruct (walk (root self) (lower prefix)) as [node|].
  - rewrite dfs_collect. simpl. rewrite len_nil, Z.sub_0_r.
    apply slice_to_take.
  - by rewrite take_nil.
Qed.

(** The traversal yields exactly the terminal paths below the node. *)
Lemma collect_terminal_2 suffix :
  ∀ n current,
    terminal_at n suffix → current ++ suffix ∈ collect n current.
Proof.
  induction suffix as [|ch suffix IH]; intros n current [node [Hw Hend]].
  - simpl in Hw. injection Hw as <-.
    rewrite collect_unfold, Hend, app_nil_r. by left.
  - simpl in Hw. destruct (children n !! ch) as [child|] eqn:Hch; [|done].
    rewrite collect_unfold. apply elem_of_app. right.
    apply list_elem_of_bind. exists ch. split.
    + rewrite Hch, (cons_middle ch), app_assoc. apply IH. by exists node.
    + apply elem_of_sorted_keys. by eexists.
Qed.

Lemma collect_terminal_1 n :
  ∀ current w,
    w ∈ collect n current →
    ∃ suffix, w = current ++ suffix ∧ terminal_at n suffix.
Proof.
  induction n as [n IH] using TrieNode_nested_ind. intros current w.
  rewrite collect_unfold, elem_of_app. intros [Hown|Hsub].
  - destruct (is_end_of_word n) eqn:Hend; [|by apply elem_of_nil in Hown].
    apply list_elem_of_singleton in Hown as ->.
    exists []. split; [by rewrite app_nil_r|]. by exists n.
  - apply list_elem_of_bind in Hsub as [ch [Hw _]].
    destruct (children n !! ch) as [child|] eqn:Hch;
      [|by apply elem_of_nil in Hw].
    destruct (IH ch child Hch _ _ Hw) as [suffix [-> [node [Hwalk Hend]]]].
    exists (ch :: suffix). split.
    + by rewrite <- app_assoc.
    + exists node. simpl. by rewrite Hch.
Qed.

Lemma collect_terminal n current w :
  w ∈ collect n current ↔
  ∃ suffix, w = current ++ suffix ∧ terminal_at n suffix.
Proof.
  split; [apply collect_terminal_1|].
  intros [suffix [-> Ht]]. by apply collect_terminal_2.
Qed.

Lemma StronglySorted_bind {K B} (R : relation K) (S : relation B)
    (G : K → list B) (keys : list K) :
  StronglySorted R keys →
  (∀ k, k ∈ keys → StronglySorted S (G k)) →
  (∀ a b x y, R a b → x ∈ G a → y ∈ G b → S x y) →
  StronglySorted S (keys ≫= G).
Proof.
  intros Hkeys HG HRS. induction Hkeys as [|k keys Hkeys IH Hk].
  - constructor.
  - rewrite bind_cons. apply StronglySorted_app. split_and!.
    + intros x y Hx Hy. apply list_elem_of_bind in Hy as [b [Hy Hb]].
      rewrite Forall_forall in Hk. eapply HRS; [by apply Hk|done..].
    + apply HG. by left.
    + apply IH. intros. apply HG. by right.
Qed.

(** The whole traversal is strictly increasing. *)
Lemma collect_sorted n :
  ∀ current, StronglySorted str_lt (collect n current).
Proof.
  induction n as [n IH] using TrieNode_nested_ind. intros current.
  rewrite collect_unfold. apply StronglySorted_app. split_and!.
  - intros x y Hx Hy.
    destruct (is_end_of_word n); [|by apply elem_of_nil in Hx].
    apply list_elem_of_singleton in Hx as ->.
    apply list_elem_of_bind in Hy as [ch [Hy _]].
    destruct (children n !! ch) as [child|]; [|by apply elem_of_nil in Hy].
    apply collect_terminal_1 in Hy as [suffix [-> _]].
    rewrite <- app_assoc. apply str_lt_app_proper.
  - destruct (is_end_of_word n); repeat constructor.
  - apply (StronglySorted_bind (λ a b, (ord a < ord b)%nat)).
    + apply sorted_keys_strict.
    + intros ch _. destruct (children n !! ch) as [child|] eqn:Hch.
      * by eapply IH.
      * constructor.
    + intros a b x y Hab Hx Hy.
      destruct (children n !! a) as [ca|]; [|by apply elem_of_nil in Hx].
      destruct (children n !! b) as [cb|]; [|by apply elem_of_nil in Hy].
      apply collect_terminal_1 in Hx as [sa [-> _]].
      apply collect_terminal_1 in Hy as [sb [-> _]].
      rewrite <- !app_assoc. by apply str_lt_app_diff.
Qed.

Lemma StronglySorted_take {A} (R : relation A) (l : list A) k :
  StronglySorted R l → StronglySorted R (take k l).
Proof.
  intros Hl. rewrite <- (take_drop k l) in Hl.
  by apply StronglySorted_app in Hl as (_ & ? & _).
Qed.

Lemma completions_sorted self prefix :
  StronglySorted str_lt (completions self prefix).
Proof.
  unfold completions. destruct (walk _ _); [apply collect_sorted|constructor].
Qed.

Lemma walk_app n p suffix :
  walk n (p ++ suffix) =
  match walk n p with
  | Some node => walk node suffix
  | None => None
  end.
Proof.
  revert n. induction p as [|c p IH]; intros n; simpl; [done|].
  destruct (children n !! c); [apply IH|done].
Qed.

(** The completions are the terminal paths of the trie that start with
    the lowercased prefix. *)
Lemma elem_of_completions self prefix w :
  w ∈ completions self prefix ↔
  ∃ suffix, w = lower prefix ++ suffix ∧ terminal_at (root self) w.
Proof.
  unfold completions, terminal_at.
  destruct (walk (root self) (lower prefix)) as [node|] eqn:Hwalk.
  - rewrite collect_terminal. unfold terminal_at.
    split; intros [suffix [-> Ht]]; exists suffix; (split; [done|]);
      by rewrite walk_app, Hwalk in *.
  - split; [by intros ?%elem_of_nil|].
    intros [suffix [-> [t [Ht _]]]]. by rewrite walk_app, Hwalk in Ht.
Qed.

(** ** Insertion *)

Lemma is_upper_lower_char c : is_upper (lower_char c) = false.
Proof. by destruct c as [[] [] [] [] [] [] [] []]. Qed.

Lemma is_space_lower_char c : is_space (lower_char c) = is_space c.
Proof. by destruct c as [[] [] [] [] [] [] [] []]. Qed.

Lemma lower_is_lowercase w : is_lowercase (lower w).
Proof.
  unfold is_lowercase, lower. apply Forall_fmap, Forall_forall.
  intros c _. apply is_upper_lower_char.
Qed.

Lemma lower_nil_inv w : lower w = [] → w = [].
Proof. apply fmap_nil_inv. Qed.

(** A lowercase string is a fixed point of [lower]. *)
Lemma lower_lowercase w : is_lowercase w → lower w = w.
Proof.
  unfold is_lowercase, lower. induction 1 as [|c w Hc _ IH]; [done|].
  rewrite fmap_cons, IH. unfold lower_char. by rewrite Hc.
Qed.

Lemma walk_TrieNode_new path node :
  walk TrieNode_new path = Some node → path = [] ∧ node = TrieNode_new.
Proof. destruct path as [|c path]; simpl; [by intros [= <-]|done]. Qed.

Lemma stores_paths_new Q path : stores_paths Q path TrieNode_new.
Proof. intros suffix node [-> ->]%walk_TrieNode_new. done. Qed.

Lemma stores_paths_child Q path n ch child :
  stores_paths Q path n → children n !! ch = Some child →
  stores_paths Q (path ++ [ch]) child.
Proof.
  intros Hn Hch suffix node Hwalk Hend. rewrite <- app_assoc.
  apply (Hn (ch :: suffix) node); [|done]. simpl. by rewrite Hch.
Qed.

Lemma insert_from_stores_paths Q chars :
  ∀ path n w,
    stores_paths Q path n → w = path ++ chars → Q w →
    stores_paths Q path (insert_from n chars w).
Proof.
  induction chars as [|ch rest IH]; intros path n w Hn -> HQ suffix node.
  - destruct suffix as [|c suffix]; simpl.
    + intros [= <-] _. done.
    + intros Hwalk Hend. apply (Hn (c :: suffix) node); done.
  - destruct suffix as [|c suffix]; simpl.
    + intros [= <-] Hend. simpl in Hend. apply (Hn [] n); done.
    + destruct (decide (ch = c)) as [->|Hne].
      * rewrite lookup_insert_eq. intros Hwalk Hend.
        rewrite (cons_middle c path suffix), app_assoc.
        eapply (IH (path ++ [c])); [| |exact HQ|exact Hwalk|exact Hend].
        -- destruct (children n !! c) as [child|] eqn:Hch; simpl.
           ++ by eapply stores_paths_child.
           ++ apply stores_paths_new.
        -- by rewrite <- app_assoc.
      * rewrite lookup_insert_ne by done. intros Hwalk Hend.
        apply (Hn (c :: suffix) node); done.
Qed.

Lemma insert_stores_paths Q self w :
  stores_paths Q [] (root self) → Q (lower w) →
  stores_paths Q [] (root (insert self w)).
Proof.
  intros Hself HQ. unfold insert. simpl.
  by apply insert_from_stores_paths.
Qed.

Lemma foldl_insert_stores_paths Q words :
  ∀ self,
    stores_paths Q [] (root self) → (∀ w, w ∈ words → Q (lower w)) →
    stores_paths Q [] (root (foldl insert self words)).
Proof.
  induction words as [|w words IH]; intros self Hself HQ; [done|].
  simpl. apply IH.
  - apply insert_stores_paths; [done|]. apply HQ. by left.
  - intros. apply HQ. by right.
Qed.

(** After inserts into a new trie, a terminal node stores the path to
    it, which is the lowercased form of an inserted word. *)
Lemma foldl_insert_terminal words path node :
  walk (root (foldl insert Trie_new words)) path = Some node →
  is_end_of_word node = true →
  word node = Some path
  ∧ is_lowercase path
  ∧ ∃ x, x ∈ words ∧ path = lower x.
Proof.
  intros Hwalk Hend.
  pose proof (foldl_insert_stores_paths
                (λ w, ∃ x, x ∈ words ∧ w = lower x) words Trie_new
                (stores_paths_new _ _)) as Hinv.
  destruct (Hinv (λ x Hx, ex_intro _ x (conj Hx eq_refl)) path node Hwalk Hend)
    as [Hword [x [Hx Hpath]]].
  simpl in Hword, Hpath. split_and!; [done| |by exists x].
  rewrite Hpath. apply lower_is_lowercase.
Qed.

(** ** Batch insertion *)

(** Search_Suggestions.py: the blank entries are dropped, the others are
    inserted in order. *)
Lemma insert_all_filter words :
  ∀ self,
    Search_Suggestions.insert_all self words =
    foldl insert self (filter (λ w, strip w ≠ []) words).
Proof.
  unfold Search_Suggestions.insert_all.
  induction words as [|w words IH]; intros self; [done|].
  rewrite filter_cons. simpl.
  case_bool_decide; case_decide; try done; simpl; apply IH.
Qed.

Lemma insert_all_blank self words :
  Forall (λ w, strip w = []) words →
  Search_Suggestions.insert_all self words = self.
Proof.
  intros Hblank. rewrite insert_all_filter.
  replace (filter (λ w, strip w ≠ []) words) with (@nil str); [done|].
  symmetry. induction Hblank as [|w words Hw _ IH]; [done|].
  rewrite filter_cons. case_decide; done.
Qed.

(** With the batch insertion of Search_Suggestions.py alone, the stored
    words are never empty. *)
Lemma insert_all_terminal_nonempty words path node :
  walk (root (Search_Suggestions.insert_all Trie_new words)) path = Some node →
  is_end_of_word node = true →
  word node = Some path ∧ is_lowercase path ∧ path ≠ [].
Proof.
  rewrite insert_all_filter. intros Hwalk Hend.
  destruct (foldl_insert_terminal _ path node Hwalk Hend)
    as (Hword & Hlow & x & Hx & Hpath).
  split_and!; [done..|].
  apply list_elem_of_filter in Hx as [Hx _].
  intros ->. symmetry in Hpath. apply lower_nil_inv in Hpath. subst x.
  by apply Hx.
Qed.

End trie.

(** * Stripping and [handle_input] *)

Section input.

Lemma lstrip_blank_app a b : lstrip a = [] → lstrip (a ++ b) = lstrip b.
Proof.
  induction a as [|c a IH]; simpl; [done|].
  destruct (is_space c); [exact IH|done].
Qed.

Lemma lstrip_app a b : lstrip a ≠ [] → lstrip (a ++ b) = lstrip a ++ b.
Proof.
  induction a as [|c a IH]; simpl; [done|].
  destruct (is_space c); [exact IH|done].
Qed.

Lemma head_lstrip s c : head (lstrip s) = Some c → is_space c = false.
Proof.
  induction s as [|x s IH]; simpl; [done|].
  destruct (is_space x) eqn:Hx; [exact IH|]. simpl. by intros [= <-].
Qed.

Lemma rstrip_snoc_space s c : is_space c = true → rstrip (s ++ [c]) = rstrip s.
Proof. intros Hc. unfold rstrip. rewrite reverse_snoc. simpl. by rewrite Hc. Qed.

(** Trailing white space does not survive [strip]. *)
Lemma strip_snoc_space s c : is_space c = true → strip (s ++ [c]) = strip s.
Proof.
  intros Hc. unfold strip. destruct (decide (lstrip s = [])) as [He|Hne].
  - rewrite lstrip_blank_app, He by done. simpl. by rewrite Hc.
  - rewrite lstrip_app by done. by apply rstrip_snoc_space.
Qed.

Lemma last_strip s c : last (strip s) = Some c → is_space c = false.
Proof.
  unfold strip, rstrip. rewrite last_reverse. apply head_lstrip.
Qed.

(** The test [text[-1] != " "] of line 120 is made on the stripped text:
    it always holds. *)
Lemma last_strip_not_space s : last (strip s) ≠ Some space.
Proof. intros H%last_strip. done. Qed.

(** The guard of line 120 reduces to the length test. *)
Lemma handle_input_guard text trie suggester :
  handle_input text trie suggester =
  let text := strip text in
  if bool_decide (text = []) then Ok None
  else
    let last_word := default [] (last (split text)) in
    spell_suggestions ←
      (if bool_decide (3 ≤ len last_word)
       then suggest suggester last_word 3 else Ok []);
    Ok (Some {| typed := text;
                auto_suggestions := get_prefix_matches trie last_word 6;
                spell_suggestions := spell_suggestions |}).
Proof.
  unfold handle_input. simpl. case_bool_decide; [done|].
  rewrite (bool_decide_eq_true_2 (last (strip text) ≠ Some space))
    by apply last_strip_not_space.
  by rewrite orb_true_r, andb_true_r.
Qed.

(** A space typed after the text changes nothing. *)
Lemma handle_input_trailing_space text trie suggester :
  handle_input (text ++ [space]) trie suggester =
  handle_input text trie suggester.
Proof. unfold handle_input. by rewrite strip_snoc_space. Qed.

End input.

(** * The spell suggester *)

Section suggester.

Lemma levenshtein_distance a b : levenshtein a b = Ok (distance a b).
Proof. apply levenshtein_ed. Qed.

Lemma for_each_append {A B} (body : list B → A → res (list B))
    (G : A → list B) (l : list A) :
  (∀ acc x, x ∈ l → body acc x = Ok (acc ++ G x)) →
  ∀ acc, for_each body l acc = Ok (acc ++ (l ≫= G)).
Proof.
  induction l as [|x l IH]; intros Hbody acc.
  - simpl. by rewrite app_nil_r.
  - rewrite bind_cons. cbn [for_each]. rewrite Hbody by left. simpl.
    rewrite IH, app_assoc; [done|]. intros. apply Hbody. by right.
Qed.

Lemma bind_scored_filter (P : str → Prop) `{!∀ t, Decision (P t)} w l :
  l ≫= (λ t, scored w (filter P [t])) = scored w (filter P l).
Proof.
  induction l as [|t l IH]; [done|].
  rewrite bind_cons, IH, (filter_cons _ t l), (filter_cons _ t []).
  by case_decide.
Qed.

(** One pass of the inner loop body never raises. *)
Lemma suggest_term_ok self w candidates term :
  w ≠ [] →
  suggest_term self w candidates term =
  Ok (candidates ++ scored w (filter (keeps (max_dist self) w) [term])).
Proof.
  intros Hw. destruct w as [|w0 w]; [done|].
  unfold suggest_term. rewrite levenshtein_distance.
  rewrite (filter_cons _ term []).
  destruct (decide (keeps (max_dist self) (w0 :: w) term)) as [Hk|Hk];
    unfold keeps in Hk; destruct term as [|t0 term]; simpl in *;
    repeat case_bool_decide; simpl; rewrite ?app_nil_r;
    try done; exfalso; subst; intuition (try congruence).
Qed.

Lemma suggest_bucket_ok self w bucket candidates :
  w ≠ [] →
  for_each (suggest_term self w) bucket candidates =
  Ok (candidates ++ scored w (filter (keeps (max_dist self) w) bucket)).
Proof.
  intros Hw. rewrite <- bind_scored_filter.
  apply for_each_append. intros. by apply suggest_term_ok.
Qed.

Lemma suggest_length_ok self w candidates length :
  w ≠ [] →
  suggest_length self w candidates length =
  Ok (candidates ++
      scored w (filter (keeps (max_dist self) w)
                       (default [] (len_buckets self !! length)))).
Proof.
  intros Hw. unfold suggest_length.
  destruct (len_buckets self !! length) as [bucket|]; simpl.
  - by apply suggest_bucket_ok.
  - by rewrite app_nil_r.
Qed.

(** [suggest] never raises, on any suggester. *)
Lemma suggest_ok self w top_k :
  suggest self w top_k =
  let w' := strip (lower w) in
  if bool_decide (w' = []) || bool_decide (w' ∈ vocab self) then Ok []
  else Ok (slice_to ((merge_sort key_le (gathered self w')).*2) top_k).
Proof.
  unfold suggest. simpl. case_bool_decide as Hw; [done|]. simpl.
  destruct (bool_decide _); [done|].
  rewrite (for_each_append _
    (λ length, scored (strip (lower w))
                 (filter (keeps (max_dist self) (strip (lower w)))
                    (default [] (len_buckets self !! length))))).
  - reflexivity.
  - intros. by apply suggest_length_ok.
Qed.

(** ** The buckets of a constructed suggester *)

Lemma lookup_bucket_append buckets w length :
  bucket_append buckets w !! length =
  if decide (len w = length)
  then Some (default [] (buckets !! length) ++ [w])
  else buckets !! length.
Proof.
  unfold bucket_append. case_decide as Hl.
  - subst length. by rewrite lookup_insert_eq.
  - by rewrite lookup_insert_ne.
Qed.

(** The bucket of a length holds the words of that length, in iteration
    order. *)
Lemma lookup_len_buckets order length :
  default [] (foldl bucket_append ∅ order !! length) =
  filter (λ t, len t = length) order.
Proof.
  induction order as [|w order IH] using rev_ind; [done|].
  rewrite foldl_snoc, lookup_bucket_append, filter_app.
  rewrite (filter_cons _ w []).
  case_decide; simpl; rewrite IH; [done|by rewrite app_nil_r].
Qed.

Lemma filter_app_disjoint {A} (P Q : A → Prop)
    `{!∀ x, Decision (P x), !∀ x, Decision (Q x)} (l : list A) :
  (∀ x, P x → Q x → False) →
  filter P l ++ filter Q l ≡ₚ filter (λ x, P x ∨ Q x) l.
Proof.
  intros Hdisj. induction l as [|x l IH]; [done|].
  rewrite !filter_cons.
  destruct (decide (P x)) as [HP|HP], (decide (Q x)) as [HQ|HQ].
  - destruct (Hdisj x HP HQ).
  - rewrite decide_True by auto. simpl. by rewrite IH.
  - rewrite decide_True by auto. rewrite <- Permutation_middle. by rewrite IH.
  - rewrite decide_False by tauto. done.
Qed.

(** Reading the buckets of consecutive lengths reads the words whose
    length is in the range. *)
Lemma bind_seqZ_filter_len (l : list str) lo (n : nat) :
  seqZ lo (Z.of_nat n) ≫= (λ length, filter (λ t, len t = length) l)
  ≡ₚ filter (λ t, lo ≤ len t < lo + Z.of_nat n) l.
Proof.
  induction n as [|n IH].
  - simpl. rewrite (list_filter_iff _ (λ _, False)) by (intros; lia).
    by induction l.
  - rewrite seqZ_S, bind_app, IH. simpl. rewrite app_nil_r.
    rewrite filter_app_disjoint by (intros; lia).
    apply reflexive_eq, list_filter_iff. intros. lia.
Qed.

Lemma bind_scored_filter_bind {K} (P : str → Prop) `{!∀ t, Decision (P t)}
    w (h : K → list str) (keys : list K) :
  keys ≫= (λ k, scored w (filter P (h k))) = scored w (filter P (keys ≫= h)).
Proof.
  induction keys as [|k keys IH]; [done|].
  rewrite !bind_cons, IH, filter_app. unfold scored. by rewrite fmap_app.
Qed.

Lemma keeps_in_range md w t :
  keeps md w t ∧ (Z.max 1 (len w - 1) ≤ len t
                  < Z.max 1 (len w - 1)
                    + Z.of_nat (Z.to_nat (len w + 2 - Z.max 1 (len w - 1))))
  ↔ is_candidate md w t.
Proof.
  unfold keeps, is_candidate. pose proof (len_nonneg w).
  split.
  - intros [[[->|Hhd] Hd] Hr]; [rewrite len_nil in Hr; lia|].
    split_and!; [lia..|done|done].
  - intros (Hr & Hhd & Hd). split_and!; [by right|done|lia..].
Qed.

(** The two loops gather, up to their order, the candidates of the
    specification. *)
Lemma gathered_constructed vocabulary md s w :
  constructed vocabulary md s →
  gathered s w ≡ₚ scored w (filter (is_candidate md w) (elements (vocab s))).
Proof.
  intros [order [Horder ->]]. unfold gathered, range2. simpl.
  rewrite (bind_scored_filter_bind _ w
    (λ length, default [] (foldl bucket_append ∅ order !! length))).
  unfold scored. apply fmap_Permutation.
  erewrite list_bind_ext; [|intros; apply lookup_len_buckets|reflexivity].
  rewrite <- (Z2Nat.id (len w + 2 - Z.max 1 (len w - 1)))
    by (pose proof (len_nonneg w); lia).
  rewrite bind_seqZ_filter_len, list_filter_filter.
  unfold iterates in Horder. rewrite Horder.
  apply reflexive_eq, list_filter_iff. intros. apply keeps_in_range.
Qed.

(** What [suggest] returns on a constructed suggester, whatever the order
    in which the vocabulary set was iterated. *)
Lemma suggest_constructed vocabulary md s w top_k :
  constructed vocabulary md s →
  suggest s w top_k =
  let w' := strip (lower w) in
  if bool_decide (w' = []) || bool_decide (w' ∈ vocab_of vocabulary)
  then Ok []
  else Ok (slice_to
             ((merge_sort key_le
                 (scored w' (filter (is_candidate md w')
                                    (elements (vocab_of vocabulary))))).*2)
             top_k).
Proof.
  intros Hs. rewrite suggest_ok. simpl.
  rewrite (merge_sort_perm key_le _ _
             (gathered_constructed vocabulary md s _ Hs)).
  by destruct Hs as [order [_ ->]].
Qed.

Lemma slice_to_nat {A} (l : list A) (k : nat) :
  slice_to l (Z.of_nat k) = take k l.
Proof.
  unfold slice_to. rewrite bool_decide_eq_false_2 by lia.
  by rewrite Nat2Z.id.
Qed.

(** No term is a candidate for the empty query. *)
Lemma is_candidate_nil md t : ¬ is_candidate md [] t.
Proof.
  unfold is_candidate. intros (Hr & Hhd & _).
  destruct t; [rewrite len_nil in Hr; lia|done].
Qed.

Lemma suggest_spec_nil V md w topK :
  strip (lower w) = [] → suggest_spec V md w topK = [].
Proof.
  intros Hw. unfold suggest_spec. rewrite Hw.
  rewrite (list_filter_iff _ (λ _, False)).
  - replace (filter (λ _ : str, False) (elements V)) with (@nil str).
    + by destruct topK.
    + by induction (elements V).
  - intros t. split; [apply is_candidate_nil|done].
Qed.

(** ** Vocabularies with the same words *)

Lemma vocab_of_perm voc1 voc2 : voc1 ≡ₚ voc2 → vocab_of voc1 = vocab_of voc2.
Proof.
  intros Hperm. unfold vocab_of. apply list_to_set_perm_L.
  by rewrite Hperm.
Qed.

(** Repeating entries does not change the set. *)
Lemma vocab_of_same_entries voc1 voc2 :
  (∀ x, x ∈ voc1 ↔ x ∈ voc2) → vocab_of voc1 = vocab_of voc2.
Proof.
  intros Hsame. unfold vocab_of. apply set_eq. intros y.
  rewrite !elem_of_list_to_set, !list_elem_of_fmap.
  split; intros [x [-> Hx]]; exists x; (split; [done|]);
    apply list_elem_of_filter in Hx as [? ?]; apply list_elem_of_filter;
    (split; [done|]); by apply Hsame.
Qed.

Lemma lstrip_lower s : lstrip (lower s) = lower (lstrip s).
Proof.
  induction s as [|c s IH]; [done|].
  simpl. rewrite is_space_lower_char. by destruct (is_space c).
Qed.

Lemma reverse_lower s : reverse (lower s) = lower (reverse s).
Proof. unfold lower. by rewrite fmap_reverse. Qed.

Lemma rstrip_lower s : rstrip (lower s) = lower (rstrip s).
Proof. unfold rstrip. by rewrite reverse_lower, lstrip_lower, reverse_lower. Qed.

Lemma strip_lower s : strip (lower s) = lower (strip s).
Proof. unfold strip. by rewrite lstrip_lower, rstrip_lower. Qed.

(** Entries that differ only in case give the same vocabulary set. *)
Lemma vocab_of_case voc1 voc2 :
  lower <$> voc1 = lower <$> voc2 → vocab_of voc1 = vocab_of voc2.
Proof.
  intros Hcase. unfold vocab_of. f_equal.
  revert voc2 Hcase. induction voc1 as [|a voc1 IH]; intros [|b voc2];
    try done.
  rewrite !fmap_cons. intros [= Hab Hrest].
  rewrite !filter_cons.
  assert (Hblank : strip a ≠ [] ↔ strip b ≠ []).
  { assert (Hl : lower (strip a) = lower (strip b))
      by (by rewrite <- !strip_lower, Hab).
    split; intros Hne He; apply Hne; rewrite He in Hl; simpl in Hl;
      [|symmetry in Hl]; by apply lower_nil_inv in Hl. }
  destruct (decide (strip a ≠ [])), (decide (strip b ≠ []));
    try tauto; rewrite ?fmap_cons, ?Hab; by rewrite (IH voc2).
Qed.

End suggester.

(** * The demonstrations of the source files *)

Section demos.

(** Trie.py 60-65: "should show machine & macbook". *)
Example demo_trie_mac :
  get_prefix_matches
    (Trie_py.insert_all Trie_new
       [py "machine"; py "learning"; py "macbook"; py "neural"])
    (py "mac") 8
  = [py "macbook"; py "machine"].
Proof. reflexivity. Qed.

(** Trie.py 73-74: an absent prefix. *)
Example demo_trie_xyz :
  get_prefix_matches
    (Trie_py.insert_all Trie_new
       [py "machine"; py "learning"; py "macbook"; py "neural"])
    (py "xyz") 8
  = [].
Proof. reflexivity. Qed.

(** Spell.py 70-78. *)
Example demo_spell :
  let words := [py "machine"; py "learning"; py "macbook"; py "neural";
                py "network"; py "neuron"; py "natural"; py "marine";
                py "medicine"; py "marching"] in
  let spell := SpellSuggester_init words 2 (elements (vocab_of words)) in
  suggest spell (py "mahcine") 3 = Ok [py "machine"; py "marine"]
  ∧ suggest spell (py "neurla") 3 = Ok [py "neural"; py "neuron"]
  ∧ suggest spell (py "machin") 3 = Ok [py "machine"]
  ∧ suggest spell (py "learing") 3 = Ok [py "learning"]
  ∧ suggest spell (py "netwok") 3 = Ok [py "network"]
  ∧ suggest spell (py "hello") 3 = Ok []
  ∧ suggest spell (py "machine") 3 = Ok [].
Proof. repeat split; vm_compute; reflexivity. Qed.

End demos.

(** * The properties of the specification *)

(** C1.  The specification says that an input whose last character is a
    space gets no spell corrections.  The source strips the text before it
    makes that test, so the test never fails: on the input ["the "], with a
    suggester built from ["then"], the active token is ["the"] and the
    correction list is [["then"]]. *)
Theorem handle_input_the_space :
  let text := py "the " in
  let suggester := SpellSuggester_init [py "then"] 2 [py "then"] in
  last text = Some space
  ∧ strip text = py "the"
  ∧ constructed [py "then"] 2 suggester
  ∧ handle_input text Trie_new suggester =
    Ok (Some {| typed := py "the";
                auto_suggestions := [];
                spell_suggestions := [py "then"] |}).
Proof.
  split_and!; try reflexivity.
  exists [py "then"]. split; [|reflexivity].
  unfold iterates. vm_compute. reflexivity.
Qed.

(** C2, as stated: on every constructed suggester, for every query and
    bound, [suggest] returns the first [topK] sorted candidates.  It fails
    for a query that is a vocabulary word: the query is its own nearest
    candidate, and [suggest] returns nothing. *)
Lemma suggest_spec_fails_on_member :
  let s := SpellSuggester_init [py "machine"] 2 [py "machine"] in
  constructed [py "machine"] 2 s
  ∧ suggest s (py "machine") 3 = Ok []
  ∧ suggest_spec (vocab s) 2 (py "machine") 3 = [py "machine"]
  ∧ suggest s (py "machine") (Z.of_nat 3)
    ≠ Ok (suggest_spec (vocab s) 2 (py "machine") 3).
Proof.
  intros s. split_and!.
  - exists [py "machine"]. split; [|reflexivity].
    unfold iterates. vm_compute. reflexivity.
  - reflexivity.
  - reflexivity.
  - intros H. vm_compute in H. discriminate H.
Qed.

(** C2, amended.  On every constructed suggester, for every query whose
    lowercased, trimmed form is not a vocabulary word and every bound
    [topK], [suggest] returns the first [topK] entries of the vocabulary
    terms of a length in [max(1, len - 1) .. len + 1] with the first
    character of the query and within [maxDist] of it, sorted ascending by
    (distance, term); for a query that is a vocabulary word it returns the
    empty list. *)
Theorem suggest_refines_spec vocabulary md s w (topK : nat) :
  constructed vocabulary md s →
  (strip (lower w) ∉ vocab s →
   suggest s w (Z.of_nat topK) = Ok (suggest_spec (vocab s) md w topK))
  ∧ (strip (lower w) ∈ vocab s → suggest s w (Z.of_nat topK) = Ok []).
Proof.
  intros Hs. rewrite (suggest_constructed vocabulary md s) by done.
  assert (Hv : vocab s = vocab_of vocabulary)
    by (by destruct Hs as [order [_ ->]]).
  rewrite Hv. simpl. split; intros Hmem.
  - rewrite (bool_decide_eq_false_2 (_ ∈ _)) by done. rewrite orb_false_r.
    case_bool_decide as Hw.
    + by rewrite suggest_spec_nil.
    + by rewrite slice_to_nat.
  - rewrite (bool_decide_eq_true_2 (_ ∈ _)) by done. by rewrite orb_true_r.
Qed.

Lemma suggest_refines_spec_witness :
  let voc := [py "machine"; py "marine"; py "medicine"] in
  let s := SpellSuggester_init voc 2 (elements (vocab_of voc)) in
  constructed voc 2 s
  ∧ (strip (lower (py "mahcine")) ∉ vocab s)
  ∧ suggest s (py "mahcine") 3 = Ok (suggest_spec (vocab s) 2 (py "mahcine") 3).
Proof.
  intros voc s.
  assert (Hc : constructed voc 2 s).
  { exists (elements (vocab_of voc)). split; [|reflexivity].
    unfold iterates. reflexivity. }
  assert (Hn : strip (lower (py "mahcine")) ∉ vocab s).
  { apply (bool_decide_unpack _). vm_compute. exact I. }
  split_and!; [exact Hc|exact Hn|].
  exact (proj1 (suggest_refines_spec voc 2 s (py "mahcine") 3 Hc) Hn).
Defined.

(** C3.  For every trie, prefix and limit, [get_prefix_matches] returns a
    strictly increasing list in the lexicographic order of strings: the
    first [limit] of the terminal words that start with the lowercased
    prefix.  After inserting "machine", "macbook" and "macarena", in any
    order and with either [insert_all], the matches of "mac" with limit 5
    are "macarena", "macbook", "machine". *)
Theorem get_prefix_matches_sorted :
  (∀ self prefix limit,
     StronglySorted str_lt (get_prefix_matches self prefix limit)
     ∧ get_prefix_matches self prefix limit =
       take (Z.to_nat limit) (completions self prefix)
     ∧ StronglySorted str_lt (completions self prefix)
     ∧ (∀ w, w ∈ completions self prefix ↔
             ∃ suffix, w = lower prefix ++ suffix
                       ∧ terminal_at (root self) w))
  ∧ (∀ words,
       words ≡ₚ [py "machine"; py "macbook"; py "macarena"] →
       get_prefix_matches (Search_Suggestions.insert_all Trie_new words)
         (py "mac") 5
       = [py "macarena"; py "macbook"; py "machine"]
       ∧ get_prefix_matches (Trie_py.insert_all Trie_new words) (py "mac") 5
         = [py "macarena"; py "macbook"; py "machine"]).
Proof.
  split.
  - intros self prefix limit. split_and!.
    + rewrite get_prefix_matches_take.
      apply StronglySorted_take, completions_sorted.
    + apply get_prefix_matches_take.
    + apply completions_sorted.
    + apply elem_of_completions.
  - intros words Hperm. symmetry in Hperm.
    apply permutations_Permutation in Hperm. vm_compute in Hperm.
    repeat (apply elem_of_cons in Hperm as [->|Hperm];
            [split; vm_compute; reflexivity|]).
    by apply elem_of_nil in Hperm.
Qed.

Lemma get_prefix_matches_sorted_witness :
  let words := [py "machine"; py "macbook"; py "macarena"] in
  words ≡ₚ [py "machine"; py "macbook"; py "macarena"]
  ∧ get_prefix_matches (Search_Suggestions.insert_all Trie_new words)
      (py "mac") 5
    = [py "macarena"; py "macbook"; py "machine"].
Proof.
  intros words. split; [reflexivity|].
  exact (proj1 (proj2 get_prefix_matches_sorted words
                  (reflexivity words))).
Defined.

(** C4, as stated: after any sequence of inserts, every word stored at a
    terminal node is lowercase and non-empty.  Inserting the empty string
    marks the root terminal and stores the empty word there. *)
Lemma insert_empty_word_stored :
  let trie := foldl insert Trie_new [py ""] in
  walk (root trie) (py "") = Some (root trie)
  ∧ is_end_of_word (root trie) = true
  ∧ word (root trie) = Some (py "")
  ∧ ¬ (∃ w, word (root trie) = Some w ∧ is_lowercase w ∧ w ≠ []).
Proof.
  intros trie. split_and!; try reflexivity.
  intros (w & Hw & _ & Hne). simpl in Hw. congruence.
Qed.

(** C4, amended.  After any sequence of inserts, every terminal node stores
    a word: the path that leads to the node, which is lowercase and is the
    lowercased form of an inserted word; it is non-empty when no inserted
    word is the empty string. *)
Theorem insert_terminal_words words path node :
  walk (root (foldl insert Trie_new words)) path = Some node →
  is_end_of_word node = true →
  ∃ w, word node = Some w
       ∧ w = path
       ∧ is_lowercase w
       ∧ (∃ x, x ∈ words ∧ w = lower x)
       ∧ ((∀ x, x ∈ words → x ≠ []) → w ≠ []).
Proof.
  intros Hwalk Hend.
  destruct (foldl_insert_terminal words path node Hwalk Hend)
    as (Hword & Hlow & x & Hx & Hpath).
  exists path. split_and!; try done.
  - by exists x.
  - intros Hne ->. symmetry in Hpath. apply lower_nil_inv in Hpath.
    by apply (Hne x).
Qed.

Lemma insert_terminal_words_witness :
  let words := [py "Neural"; py "Mac"] in
  let node := {| children := ∅;
                 is_end_of_word := true;
                 word := Some (py "mac") |} in
  walk (root (foldl insert Trie_new words)) (py "mac") = Some node
  ∧ is_end_of_word node = true
  ∧ ∃ w, word node = Some w
         ∧ w = py "mac"
         ∧ is_lowercase w
         ∧ (∃ x, x ∈ words ∧ w = lower x)
         ∧ ((∀ x, x ∈ words → x ≠ []) → w ≠ []).
Proof.
  intros words node.
  assert (Hwalk : walk (root (foldl insert Trie_new words)) (py "mac")
                  = Some node) by reflexivity.
  split_and!; [exact Hwalk|reflexivity|].
  exact (insert_terminal_words words (py "mac") node Hwalk eq_refl).
Defined.

(** C5.  [insert_all] of Search_Suggestions.py skips the blank entries
    (lemma [insert_all_filter]); [insert_all] of Trie.py has no such test
    and inserts them: the entry [" "] adds a terminal node for [" "], the
    entry [""] marks the root. *)
Theorem Trie_py_insert_all_blank :
  strip (py " ") = []
  ∧ Search_Suggestions.insert_all Trie_new [py " "] = Trie_new
  ∧ Trie_py.insert_all Trie_new [py " "] ≠ Trie_new
  ∧ get_prefix_matches (Trie_py.insert_all Trie_new [py " "]) (py "") 8
    = [py " "]
  ∧ get_prefix_matches (Trie_py.insert_all Trie_new [py ""]) (py "") 8
    = [py ""].
Proof.
  split_and!; try reflexivity.
  intros Heq.
  assert (Hm : get_prefix_matches (Trie_py.insert_all Trie_new [py " "])
                 (py "") 8 = get_prefix_matches Trie_new (py "") 8)
    by (by rewrite Heq).
  vm_compute in Hm. discriminate Hm.
Qed.

(** C6.  For all strings [a] and [b], [levenshtein(a, b)] equals
    [levenshtein(b, a)], [levenshtein(a, a)] is 0 and
    [levenshtein(a, "")] is [len(a)]. *)
Theorem levenshtein_sym_diag_empty (a b : str) :
  levenshtein a b = levenshtein b a
  ∧ levenshtein a a = Ok 0
  ∧ levenshtein a [] = Ok (len a).
Proof.
  split_and!.
  - by rewrite !levenshtein_ed, ed_sym.
  - by rewrite levenshtein_ed, ed_diag.
  - by rewrite levenshtein_ed, reverse_nil, ed_nil_r, len_reverse.
Qed.

(** C7.  [suggest] raises on no suggester and no query: it returns a list.
    The list is empty when the lowercased, trimmed query is empty or is a
    vocabulary word, and for every query on a suggester built from the
    empty vocabulary. *)
Theorem suggest_never_raises :
  (∀ s w top_k,
     (∃ l, suggest s w top_k = Ok l)
     ∧ (strip (lower w) = [] ∨ strip (lower w) ∈ vocab s →
        suggest s w top_k = Ok []))
  ∧ (∀ md w top_k, suggest (SpellSuggester_init [] md []) w top_k = Ok []).
Proof.
  split.
  - intros s w top_k. rewrite suggest_ok. simpl. split.
    + destruct (_ || _); eauto.
    + intros [Hw|Hw].
      * by rewrite (bool_decide_eq_true_2 (_ = _)) by done.
      * rewrite (bool_decide_eq_true_2 (_ ∈ _)) by done.
        by rewrite orb_true_r.
  - intros md w top_k.
    rewrite (suggest_constructed [] md).
    + simpl. change (vocab_of []) with (∅ : gset str).
      rewrite elements_empty. destruct (_ || _); [done|].
      unfold slice_to. simpl. destruct (bool_decide _); by rewrite take_nil.
    + exists []. split; [|reflexivity]. unfold iterates.
      change (vocab_of []) with (∅ : gset str). by rewrite elements_empty.
Qed.

Lemma suggest_never_raises_witness :
  let s := SpellSuggester_init [py "machine"] 2 [py "machine"] in
  (strip (lower (py " Machine ")) = []
   ∨ strip (lower (py " Machine ")) ∈ vocab s)
  ∧ suggest s (py " Machine ") 3 = Ok [].
Proof.
  intros s.
  assert (Hm : strip (lower (py " Machine ")) = []
               ∨ strip (lower (py " Machine ")) ∈ vocab s).
  { right. apply (bool_decide_unpack _). vm_compute. exact I. }
  split; [exact Hm|].
  exact (proj2 (proj1 suggest_never_raises s (py " Machine ") 3) Hm).
Defined.

(** C8.  For every trie, prefix and limit that is not negative,
    [get_prefix_matches] returns at most [limit] words; none when the limit
    is 0. *)
Theorem get_prefix_matches_length self prefix limit :
  0 ≤ limit →
  len (get_prefix_matches self prefix limit) ≤ limit
  ∧ (limit = 0 → get_prefix_matches self prefix limit = []).
Proof.
  intros Hlimit. rewrite get_prefix_matches_take. split.
  - unfold len. rewrite length_take. lia.
  - intros ->. reflexivity.
Qed.

Lemma get_prefix_matches_length_witness :
  let trie :=
    Search_Suggestions.insert_all Trie_new
      [py "machine"; py "macbook"; py "macarena"] in
  0 ≤ 2
  ∧ len (get_prefix_matches trie (py "mac") 2) ≤ 2
  ∧ (2 = 0 → get_prefix_matches trie (py "mac") 2 = []).
Proof.
  intros trie.
  assert (H2 : 0 ≤ 2) by lia.
  split; [exact H2|].
  exact (get_prefix_matches_length trie (py "mac") 2 H2).
Defined.

(** C9.  For all strings [a] and [b], [levenshtein(a, b)] is at least the
    difference of their lengths; so a distance of at most [maxDist] bounds
    the difference of the lengths by [maxDist]. *)
Theorem levenshtein_length_bound (a b : str) :
  ∃ d, levenshtein a b = Ok d
       ∧ Z.abs (len a - len b) ≤ d
       ∧ ∀ maxDist, d ≤ maxDist → Z.abs (len a - len b) ≤ maxDist.
Proof.
  exists (distance a b). rewrite levenshtein_distance.
  assert (Hb : Z.abs (len a - len b) ≤ distance a b).
  { unfold distance. rewrite <- (len_reverse a), <- (len_reverse b).
    apply ed_len_diff. }
  split_and!; [done|done|]. intros maxDist ?. lia.
Qed.

Lemma levenshtein_length_bound_witness :
  levenshtein (py "machine") (py "mac") = Ok 4
  ∧ Z.abs (len (py "machine") - len (py "mac")) ≤ 4
  ∧ (4 ≤ 5 → Z.abs (len (py "machine") - len (py "mac")) ≤ 5).
Proof.
  destruct (levenshtein_length_bound (py "machine") (py "mac"))
    as (d & Hd & Hbound & Hmax).
  assert (Heq : d = 4) by (vm_compute in Hd; congruence).
  subst d. split_and!; [exact Hd|exact Hbound|exact (Hmax 5)].
Defined.

(** C10.  Two vocabulary sequences that are permutations of each other, or
    have the same entries up to repetition, or differ only in case, or more
    generally give the same vocabulary set, give suggesters that return the
    same list for every query and every [top_k], with the same [max_dist]
    and whatever the orders in which the two sets were iterated. *)
Theorem suggest_order_insensitive voc1 voc2 md s1 s2 :
  voc1 ≡ₚ voc2
  ∨ (∀ x, x ∈ voc1 ↔ x ∈ voc2)
  ∨ lower <$> voc1 = lower <$> voc2
  ∨ vocab_of voc1 = vocab_of voc2 →
  constructed voc1 md s1 →
  constructed voc2 md s2 →
  ∀ w top_k, suggest s1 w top_k = suggest s2 w top_k.
Proof.
  intros Hsame Hs1 Hs2 w top_k.
  assert (Hv : vocab_of voc1 = vocab_of voc2).
  { destruct Hsame as [?|[?|[?|?]]];
      auto using vocab_of_perm, vocab_of_same_entries, vocab_of_case. }
  rewrite (suggest_constructed voc1 md s1), (suggest_constructed voc2 md s2)
    by done.
  by rewrite Hv.
Qed.

Lemma suggest_order_insensitive_witness :
  let voc1 := [py "machine"; py "Marine"] in
  let voc2 := [py "marine"; py "MACHINE"; py "machine"] in
  let s1 := SpellSuggester_init voc1 2 [py "machine"; py "marine"] in
  let s2 := SpellSuggester_init voc2 2 [py "marine"; py "machine"] in
  vocab_of voc1 = vocab_of voc2
  ∧ constructed voc1 2 s1
  ∧ constructed voc2 2 s2
  ∧ suggest s1 (py "mahcine") 3 = suggest s2 (py "mahcine") 3.
Proof.
  intros voc1 voc2 s1 s2.
  assert (Hv : vocab_of voc1 = vocab_of voc2) by reflexivity.
  assert (H1 : constructed voc1 2 s1).
  { exists [py "machine"; py "marine"]. split; [|reflexivity].
    unfold iterates. vm_compute. apply perm_swap. }
  assert (H2 : constructed voc2 2 s2).
  { exists [py "marine"; py "machine"]. split; [|reflexivity].
    unfold iterates. vm_compute. reflexivity. }
  split_and!; [exact Hv|exact H1|exact H2|].
  exact (suggest_order_insensitive voc1 voc2 2 s1 s2
           (or_intror (or_intror (or_intror Hv))) H1 H2 (py "mahcine") 3).
Defined.

(** * Further properties of the trie *)

Section trie_contents.

Lemma terminal_at_new p : ¬ terminal_at TrieNode_new p.
Proof. intros [node [[-> ->]%walk_TrieNode_new Hend]]. done. Qed.

Lemma terminal_at_cons n ch p :
  terminal_at n (ch :: p) ↔
  ∃ child, children n !! ch = Some child ∧ terminal_at child p.
Proof.
  unfold terminal_at. simpl. destruct (children n !! ch) as [child|].
  - split; [intros H; by exists child|]. by intros [c [[= <-] H]].
  - split; [by intros [? [? ?]]|]. by intros [c [? _]].
Qed.

(** The terminal paths after an insertion: the old ones and the new one. *)
Lemma terminal_at_insert_from chars :
  ∀ n w p,
    terminal_at (insert_from n chars w) p ↔ p = chars ∨ terminal_at n p.
Proof.
  induction chars as [|ch rest IH]; intros n w p.
  - destruct p as [|c p].
    + split; [by left|]. intros _. by eexists.
    + rewrite !terminal_at_cons. simpl. split; [by right|]. by intros [?|?].
  - destruct p as [|c p].
    + unfold terminal_at. simpl. split.
      * intros [node [[= <-] Hend]]. right. by exists n.
      * intros [?|[node [[= <-] Hend]]]; [done|]. by eexists.
    + rewrite !terminal_at_cons. simpl.
      destruct (decide (ch = c)) as [->|Hne].
      * rewrite lookup_insert_eq. split.
        -- intros [child [[= <-] Ht]]. apply IH in Ht as [->|Ht]; [by left|].
           right. destruct (children n !! c) as [c0|]; simpl in Ht.
           ++ by exists c0.
           ++ by apply terminal_at_new in Ht.
        -- intros Hp. eexists. split; [done|]. apply IH.
           destruct Hp as [[= ->]|[c0 [Hc0 Ht]]]; [by left|].
           right. by rewrite Hc0.
      * rewrite lookup_insert_ne by done. split; [by right|].
        by intros [[= ? ?]|?].
Qed.

Lemma terminal_at_insert self w p :
  terminal_at (root (insert self w)) p ↔
  p = lower w ∨ terminal_at (root self) p.
Proof. apply terminal_at_insert_from. Qed.

Lemma terminal_at_foldl_insert words :
  ∀ self p,
    terminal_at (root (foldl insert self words)) p ↔
    p ∈ lower <$> words ∨ terminal_at (root self) p.
Proof.
  induction words as [|w words IH]; intros self p.
  - simpl. rewrite elem_of_nil. tauto.
  - cbn [foldl]. rewrite IH, terminal_at_insert, fmap_cons, elem_of_cons.
    tauto.
Qed.

Lemma lower_lower w : lower (lower w) = lower w.
Proof. apply lower_lowercase, lower_is_lowercase. Qed.

Lemma StronglySorted_str_lt_NoDup (l : list str) :
  StronglySorted str_lt l → NoDup l.
Proof.
  induction 1 as [|x l _ IH Hx]; constructor; [|done].
  intros Hin. rewrite Forall_forall in Hx.
  by apply (str_lt_irrefl x), Hx.
Qed.

(** ** Insertions commute and repeat without effect *)

Lemma insert_from_idemp chars :
  ∀ n w, insert_from (insert_from n chars w) chars w = insert_from n chars w.
Proof.
  induction chars as [|ch rest IH]; intros n w; [done|].
  simpl. rewrite lookup_insert_eq, insert_insert_eq. simpl. by rewrite IH.
Qed.

Lemma insert_from_comm a :
  ∀ b n wa wb,
    (a = b → wa = wb) →
    insert_from (insert_from n a wa) b wb =
    insert_from (insert_from n b wb) a wa.
Proof.
  induction a as [|x a IH]; intros [|y b] n wa wb Hsame; simpl; try done.
  - by rewrite Hsame.
  - destruct (decide (x = y)) as [->|Hne].
    + rewrite !lookup_insert_eq, !insert_insert_eq. simpl.
      rewrite (IH b); [done|]. intros ->. by apply Hsame.
    + rewrite !lookup_insert_ne by done.
      by rewrite (insert_insert_ne _ x y).
Qed.

Lemma insert_comm self a b :
  insert (insert self a) b = insert (insert self b) a.
Proof.
  unfold insert. simpl. f_equal. by apply insert_from_comm.
Qed.

Lemma foldl_insert_perm words1 words2 :
  words1 ≡ₚ words2 →
  ∀ self, foldl insert self words1 = foldl insert self words2.
Proof.
  induction 1 as [|w l1 l2 _ IH|a b l|l1 l2 l3 _ IH1 _ IH2]; intros self.
  - done.
  - simpl. apply IH.
  - simpl. by rewrite insert_comm.
  - by rewrite IH1.
Qed.

Lemma walk_insert_from chars :
  ∀ n w, ∃ node,
    walk (insert_from n chars w) chars = Some node
    ∧ is_end_of_word node = true ∧ word node = Some w.
Proof.
  induction chars as [|ch rest IH]; intros n w.
  - by eexists.
  - simpl. rewrite lookup_insert_eq. apply IH.
Qed.

(** With a limit that covers them all, [get_prefix_matches] returns every
    completion. *)
Lemma get_prefix_matches_all self prefix limit :
  len (completions self prefix) ≤ limit →
  get_prefix_matches self prefix limit = completions self prefix.
Proof.
  intros Hlimit. rewrite get_prefix_matches_take. apply take_ge.
  unfold len in Hlimit. lia.
Qed.

Lemma elem_of_get_prefix_matches self prefix limit x :
  x ∈ get_prefix_matches self prefix limit → x ∈ completions self prefix.
Proof. rewrite get_prefix_matches_take. apply subseteq_take. Qed.

(** The completions of a trie filled from the empty trie. *)
Lemma elem_of_completions_foldl_insert words prefix x :
  x ∈ completions (foldl insert Trie_new words) prefix ↔
  lower prefix `prefix_of` x ∧ x ∈ lower <$> words.
Proof.
  rewrite elem_of_completions. setoid_rewrite terminal_at_foldl_insert. split.
  - intros [suffix [-> [?|?%terminal_at_new]]]; [|done].
    split; [by exists suffix|done].
  - intros [[suffix ->] Hx]. exists suffix. split; [done|by left].
Qed.

Lemma completions_foldl_insert_length words prefix :
  (length (completions (foldl insert Trie_new words) prefix)
   ≤ length words)%nat.
Proof.
  rewrite <- (length_fmap lower words). apply submseteq_length, NoDup_submseteq.
  - apply StronglySorted_str_lt_NoDup, completions_sorted.
  - intros x Hx. by apply elem_of_completions_foldl_insert in Hx as [_ ?].
Qed.

End trie_contents.

(** X1.  After [insert(w)], the matches of any prefix, taken without limit,
    are the former ones and the lowercased word, the latter when it starts
    with the lowercased prefix: an insertion adds one word and removes
    none. *)
Theorem insert_adds_one_word self w prefix x :
  x ∈ completions (insert self w) prefix ↔
  (x = lower w ∧ lower prefix `prefix_of` lower w)
  ∨ x ∈ completions self prefix.
Proof.
  rewrite !elem_of_completions. setoid_rewrite terminal_at_insert. split.
  - intros [suffix [-> [Heq|Ht]]].
    + left. split; [done|]. rewrite <- Heq. by exists suffix.
    + right. by exists suffix.
  - intros [[-> [suffix Hs]]|[suffix [-> Ht]]].
    + exists suffix. split; [done|by left].
    + exists suffix. split; [done|by right].
Qed.

(** X2.  Inserting a word again, in any letter case, leaves the trie as it
    is. *)
Theorem insert_again_same_trie self w1 w2 :
  lower w1 = lower w2 → insert (insert self w1) w2 = insert self w1.
Proof.
  intros Hcase. unfold insert. simpl. rewrite <- Hcase.
  by rewrite insert_from_idemp.
Qed.

Lemma insert_again_same_trie_witness :
  lower (py "MacBook") = lower (py "macbook")
  ∧ insert (insert Trie_new (py "MacBook")) (py "macbook")
    = insert Trie_new (py "MacBook").
Proof.
  assert (Hcase : lower (py "MacBook") = lower (py "macbook")) by reflexivity.
  split; [exact Hcase|].
  exact (insert_again_same_trie Trie_new (py "MacBook") (py "macbook") Hcase).
Defined.

(** X3.  The trie does not depend on the order of the insertions: the two
    [insert_all] give the same trie on two permutations of a word list. *)
Theorem insert_all_permutation self words1 words2 :
  words1 ≡ₚ words2 →
  Trie_py.insert_all self words1 = Trie_py.insert_all self words2
  ∧ Search_Suggestions.insert_all self words1
    = Search_Suggestions.insert_all self words2.
Proof.
  intros Hperm. split.
  - by apply foldl_insert_perm.
  - rewrite !insert_all_filter. apply foldl_insert_perm. by rewrite Hperm.
Qed.

Lemma insert_all_permutation_witness :
  [py "neural"; py "mac"] ≡ₚ [py "mac"; py "neural"]
  ∧ Trie_py.insert_all Trie_new [py "neural"; py "mac"]
    = Trie_py.insert_all Trie_new [py "mac"; py "neural"]
  ∧ Search_Suggestions.insert_all Trie_new [py "neural"; py "mac"]
    = Search_Suggestions.insert_all Trie_new [py "mac"; py "neural"].
Proof.
  assert (Hperm : [py "neural"; py "mac"] ≡ₚ [py "mac"; py "neural"])
    by apply perm_swap.
  split; [exact Hperm|].
  exact (insert_all_permutation Trie_new _ _ Hperm).
Defined.

(** X4.  On a trie filled by [insert_all] of Search_Suggestions.py from the
    empty trie, [get_prefix_matches] returns only lowercased non-blank
    entries of the word list that start with the lowercased prefix, each at
    most once; it returns every such entry when the limit is at least the
    number of entries. *)
Theorem get_prefix_matches_insert_all words prefix limit :
  let trie := Search_Suggestions.insert_all Trie_new words in
  NoDup (get_prefix_matches trie prefix limit)
  ∧ (∀ x, x ∈ get_prefix_matches trie prefix limit →
          lower prefix `prefix_of` x
          ∧ ∃ w, w ∈ words ∧ strip w ≠ [] ∧ x = lower w)
  ∧ (len words ≤ limit →
     ∀ w, w ∈ words → strip w ≠ [] → lower prefix `prefix_of` lower w →
          lower w ∈ get_prefix_matches trie prefix limit).
Proof.
  intros trie. unfold trie. rewrite insert_all_filter. split_and!.
  - rewrite get_prefix_matches_take.
    apply StronglySorted_str_lt_NoDup, StronglySorted_take, completions_sorted.
  - intros x Hx%elem_of_get_prefix_matches.
    apply elem_of_completions_foldl_insert in Hx as [Hp Hx].
    split; [done|]. apply list_elem_of_fmap in Hx as [w [-> Hw]].
    apply list_elem_of_filter in Hw as [? ?]. by exists w.
  - intros Hlimit w Hw Hblank Hp. rewrite get_prefix_matches_all.
    + apply elem_of_completions_foldl_insert. split; [done|].
      apply list_elem_of_fmap. exists w. split; [done|].
      by apply list_elem_of_filter.
    + pose proof (completions_foldl_insert_length
                    (filter (λ w, strip w ≠ []) words) prefix) as Hc.
      pose proof (length_filter (λ w : str, strip w ≠ []) words) as Hf.
      unfold len in *. lia.
Qed.

Lemma get_prefix_matches_insert_all_witness :
  let words := [py "Machine"; py "  "; py "macbook"] in
  let trie := Search_Suggestions.insert_all Trie_new words in
  len words ≤ 3
  ∧ py "Machine" ∈ words
  ∧ strip (py "Machine") ≠ []
  ∧ lower (py "MA") `prefix_of` lower (py "Machine")
  ∧ lower (py "Machine") ∈ get_prefix_matches trie (py "MA") 3.
Proof.
  intros words trie.
  assert (H1 : len words ≤ 3) by (vm_compute; discriminate).
  assert (H2 : py "Machine" ∈ words) by left.
  assert (H3 : strip (py "Machine") ≠ []) by discriminate.
  assert (H4 : lower (py "MA") `prefix_of` lower (py "Machine"))
    by (by exists (py "chine")).
  split_and!; [exact H1|exact H2|exact H3|exact H4|].
  exact (proj2 (proj2 (get_prefix_matches_insert_all words (py "MA") 3))
           H1 (py "Machine") H2 H3 H4).
Defined.

(** X5.  A word that has been inserted is the first match of itself, in any
    letter case, for every limit of at least 1. *)
Theorem inserted_word_first_match self w prefix limit :
  lower prefix = lower w → 1 ≤ limit →
  head (get_prefix_matches (insert self w) prefix limit) = Some (lower w).
Proof.
  intros Hcase Hlimit. rewrite get_prefix_matches_take.
  unfold completions, insert. simpl. rewrite Hcase.
  destruct (walk_insert_from (lower w) (root self) (lower w))
    as (node & -> & Hend & _).
  rewrite collect_unfold, Hend.
  destruct (Z.to_nat limit) as [|k] eqn:Hk; [lia|]. reflexivity.
Qed.

Lemma inserted_word_first_match_witness :
  lower (py "mac") = lower (py "Mac")
  ∧ 1 ≤ 2
  ∧ head (get_prefix_matches
            (insert (insert Trie_new (py "machine")) (py "Mac")) (py "mac") 2)
    = Some (lower (py "Mac")).
Proof.
  assert (H1 : lower (py "mac") = lower (py "Mac")) by reflexivity.
  assert (H2 : 1 ≤ 2) by lia.
  split_and!; [exact H1|exact H2|].
  exact (inserted_word_first_match _ (py "Mac") (py "mac") 2 H1 H2).
Defined.

(** X6.  A limit of 0 or less gives no match (a negative limit is not read
    as a count from the end), and the matches for a limit are the first of
    the matches for any greater limit. *)
Theorem get_prefix_matches_limits self prefix limit1 limit2 :
  (limit1 ≤ 0 → get_prefix_matches self prefix limit1 = [])
  ∧ (limit1 ≤ limit2 →
     get_prefix_matches self prefix limit1
     = take (Z.to_nat limit1) (get_prefix_matches self prefix limit2)).
Proof.
  rewrite !get_prefix_matches_take. split.
  - intros Hneg. replace (Z.to_nat limit1) with 0%nat by lia. apply take_0.
  - intros Hle. rewrite take_take. f_equal. lia.
Qed.

Lemma get_prefix_matches_limits_witness :
  let trie := Trie_py.insert_all Trie_new [py "mac"; py "machine"] in
  (-1 ≤ 0 ∧ get_prefix_matches trie (py "m") (-1) = [])
  ∧ (1 ≤ 2 ∧ get_prefix_matches trie (py "m") 1
             = take (Z.to_nat 1) (get_prefix_matches trie (py "m") 2)).
Proof.
  intros trie.
  assert (H1 : -1 ≤ 0) by lia. assert (H2 : 1 ≤ 2) by lia.
  split; (split; [assumption|]).
  - exact (proj1 (get_prefix_matches_limits trie (py "m") (-1) 0) H1).
  - exact (proj2 (get_prefix_matches_limits trie (py "m") 1 2) H2).
Defined.

(** * Further properties of the distance *)

Section metric.

Lemma neq_cost_zero x y : neq_cost x y = 0 ↔ x = y.
Proof. unfold neq_cost. case_bool_decide; split; intros; try done; lia. Qed.

Lemma neq_cost_triangle x y z : neq_cost x z ≤ neq_cost x y + neq_cost y z.
Proof. unfold neq_cost. repeat case_bool_decide; try lia. congruence. Qed.

Lemma ed_zero a : ∀ b, ed a b = 0 ↔ a = b.
Proof.
  induction a as [|x a IH]; intros [|y b].
  - done.
  - simpl. rewrite len_cons. pose proof (len_nonneg b). split; [lia|done].
  - rewrite ed_nil_r, len_cons. pose proof (len_nonneg a). split; [lia|done].
  - rewrite ed_cons_cons.
    pose proof (ed_nonneg a (y :: b)). pose proof (ed_nonneg (x :: a) b).
    pose proof (ed_nonneg a b). pose proof (neq_cost_range x y).
    split.
    + intros Hz. assert (ed a b = 0 ∧ neq_cost x y = 0) as [Hab Hxy] by lia.
      apply IH in Hab. apply neq_cost_zero in Hxy. congruence.
    + intros [= -> ->]. rewrite (proj2 (IH b) eq_refl), neq_cost_diag. lia.
Qed.

Lemma ed_le_max a : ∀ b, ed a b ≤ Z.max (len a) (len b).
Proof.
  induction a as [|x a IH]; intros [|y b].
  - done.
  - simpl. lia.
  - rewrite ed_nil_r. lia.
  - rewrite ed_cons_cons, !len_cons.
    pose proof (IH b). pose proof (neq_cost_range x y). lia.
Qed.

Lemma ed_triangle_below (n : nat) :
  ∀ a b c,
    (length a + length b + length c < n)%nat →
    ed a c ≤ ed a b + ed b c.
Proof.
  induction n as [|n IH]; intros a b c Hn; [lia|].
  destruct a as [|x a].
  { pose proof (ed_len_diff b c). change (ed [] c) with (len c).
    change (ed [] b) with (len b). lia. }
  destruct c as [|z c].
  { pose proof (ed_len_diff (x :: a) b). rewrite !ed_nil_r. lia. }
  destruct b as [|y b].
  { pose proof (ed_le_max (x :: a) (z :: c)).
    pose proof (len_nonneg (x :: a)). pose proof (len_nonneg (z :: c)).
    rewrite ed_nil_r. change (ed [] (z :: c)) with (len (z :: c)). lia. }
  simpl in Hn.
  assert (H1 : ed a (z :: c) ≤ ed a (y :: b) + ed (y :: b) (z :: c))
    by (apply IH; simpl; lia).
  assert (H2 : ed (x :: a) c ≤ ed (x :: a) (y :: b) + ed (y :: b) c)
    by (apply IH; simpl; lia).
  assert (H3 : ed (x :: a) (z :: c) ≤ ed (x :: a) b + ed b (z :: c))
    by (apply IH; simpl; lia).
  assert (H4 : ed (x :: a) c ≤ ed (x :: a) b + ed b c)
    by (apply IH; simpl; lia).
  assert (H5 : ed a (z :: c) ≤ ed a b + ed b (z :: c))
    by (apply IH; simpl; lia).
  assert (H6 : ed a c ≤ ed a b + ed b c) by (apply IH; simpl; lia).
  pose proof (ed_cons_cons x y a b) as Exy.
  pose proof (ed_cons_cons y z b c) as Eyz.
  pose proof (ed_cons_cons x z a c) as Exz.
  pose proof (neq_cost_triangle x y z).
  pose proof (neq_cost_range x y). pose proof (neq_cost_range y z).
  lia.
Qed.

Lemma ed_triangle a b c : ed a c ≤ ed a b + ed b c.
Proof.
  apply (ed_triangle_below (S (length a + length b + length c))). lia.
Qed.

Lemma distance_zero a b : distance a b = 0 ↔ a = b.
Proof.
  unfold distance. rewrite ed_zero. split; [|by intros ->].
  intros H. by apply (inj reverse).
Qed.

End metric.

(** X7.  [levenshtein] returns 0 exactly on equal strings, and never more
    than the length of the longer string. *)
Theorem levenshtein_zero_and_max (a b : str) :
  ∃ d, levenshtein a b = Ok d
       ∧ (d = 0 ↔ a = b)
       ∧ 0 ≤ d ≤ Z.max (len a) (len b).
Proof.
  exists (distance a b). rewrite levenshtein_distance. split_and!.
  - done.
  - apply distance_zero.
  - apply ed_nonneg.
  - unfold distance. rewrite <- (len_reverse a), <- (len_reverse b).
    apply ed_le_max.
Qed.

(** X8.  [levenshtein] satisfies the triangle inequality; with X7 and the
    symmetry it is a metric on strings. *)
Theorem levenshtein_triangle (a b c : str) :
  ∃ dab dbc dac,
    levenshtein a b = Ok dab ∧ levenshtein b c = Ok dbc
    ∧ levenshtein a c = Ok dac
    ∧ dac ≤ dab + dbc.
Proof.
  exists (distance a b), (distance b c), (distance a c).
  rewrite !levenshtein_distance. split_and!; try done.
  apply ed_triangle.
Qed.

(** * Further properties of the spell suggester *)

Section suggestions.

Lemma strip_nil : strip [] = [].
Proof. reflexivity. Qed.

(** The vocabulary set holds lowercased, non-empty words. *)
Lemma elem_of_vocab_of vocabulary t :
  t ∈ vocab_of vocabulary ↔
  ∃ x, x ∈ vocabulary ∧ strip x ≠ [] ∧ t = lower x.
Proof.
  unfold vocab_of. rewrite elem_of_list_to_set, list_elem_of_fmap.
  split.
  - intros [x [-> [? ?]%list_elem_of_filter]]. by exists x.
  - intros (x & ? & ? & ->). exists x. split; [done|].
    by apply list_elem_of_filter.
Qed.

Lemma vocab_of_nonempty vocabulary t : t ∈ vocab_of vocabulary → t ≠ [].
Proof.
  intros (x & _ & Hx & ->)%elem_of_vocab_of Hnil.
  apply lower_nil_inv in Hnil. by subst x.
Qed.

(** No bucket is the empty list. *)
Lemma len_buckets_nonempty order length :
  foldl bucket_append ∅ order !! length ≠ Some [].
Proof.
  induction order as [|w order IH] using rev_ind; [done|].
  rewrite foldl_snoc, lookup_bucket_append. case_decide; [|done].
  intros [= Hnil]. by apply app_nil in Hnil as [_ ?].
Qed.

Lemma lookup_len_buckets_Some order length bucket :
  foldl bucket_append ∅ order !! length = Some bucket →
  bucket ≠ [] ∧ bucket = filter (λ t, len t = length) order.
Proof.
  intros Hb. split.
  - intros ->. by apply len_buckets_nonempty in Hb.
  - by rewrite <- lookup_len_buckets, Hb.
Qed.

Lemma scored_snd w l : (scored w l).*2 = l.
Proof.
  unfold scored. rewrite <- list_fmap_compose.
  induction l as [|t l IH]; [done|]. by rewrite fmap_cons, IH.
Qed.

Lemma ranked_perm V md w :
  ranked V md w ≡ₚ filter (is_candidate md w) (elements V).
Proof.
  unfold ranked. rewrite merge_sort_Permutation. by rewrite scored_snd.
Qed.

Lemma elem_of_ranked V md w t :
  t ∈ ranked V md w ↔ t ∈ V ∧ is_candidate md w t.
Proof.
  rewrite ranked_perm, list_elem_of_filter, elem_of_elements. tauto.
Qed.

Lemma ranked_NoDup V md w : NoDup (ranked V md w).
Proof. rewrite ranked_perm. apply NoDup_filter, NoDup_elements. Qed.

Lemma StronglySorted_scored w (l : list (Z * str)) :
  StronglySorted key_le l →
  Forall (λ p, p.1 = distance w p.2) l →
  NoDup (l.*2) →
  StronglySorted (ranks_before w) (l.*2).
Proof.
  induction 1 as [|[d t] l Hl IH Hhd]; intros Hsc Hnd; [constructor|].
  apply Forall_cons in Hsc as [Hd Hsc]. simpl in Hd. subst d.
  rewrite fmap_cons in Hnd |- *. apply NoDup_cons in Hnd as [Hnotin Hnd].
  constructor; [by apply IH|].
  apply Forall_fmap, Forall_forall. intros [d' t'] Hin.
  rewrite Forall_forall in Hhd, Hsc.
  pose proof (Hhd _ Hin) as Hle. pose proof (Hsc _ Hin) as Hd'.
  simpl in *. subst d'. unfold key_le in Hle. simpl in Hle.
  exists (distance w t), (distance w t'). rewrite !levenshtein_distance.
  split_and!; [done..|].
  destruct Hle as [?|[Heq [->|?]]]; [by left| |by right].
  destruct Hnotin. apply list_elem_of_fmap. by exists (distance w t', t').
Qed.

Lemma ranked_sorted V md w : StronglySorted (ranks_before w) (ranked V md w).
Proof.
  apply StronglySorted_scored.
  - apply StronglySorted_merge_sort; apply _.
  - rewrite merge_sort_Permutation. unfold scored.
    apply Forall_fmap, Forall_forall. by intros t _.
  - apply ranked_NoDup.
Qed.

Lemma slice_to_subseteq {A} (l : list A) k : slice_to l k ⊆ l.
Proof. unfold slice_to. case_bool_decide; apply subseteq_take. Qed.

Lemma slice_to_NoDup {A} (l : list A) k : NoDup l → NoDup (slice_to l k).
Proof.
  intros Hl. unfold slice_to.
  case_bool_decide; (eapply sublist_NoDup; [done|apply sublist_take]).
Qed.

Lemma slice_to_length {A} (l : list A) k : 0 ≤ k → len (slice_to l k) ≤ k.
Proof.
  intros Hk. unfold slice_to, len. rewrite bool_decide_eq_false_2 by lia.
  rewrite length_take. lia.
Qed.

(** [suggest] on a constructed suggester, in terms of the ranked
    candidates. *)
Lemma suggest_ranked vocabulary md s w top_k :
  constructed vocabulary md s →
  suggest s w top_k =
  if bool_decide (strip (lower w) = [])
     || bool_decide (strip (lower w) ∈ vocab s)
  then Ok []
  else Ok (slice_to (ranked (vocab s) md (strip (lower w))) top_k).
Proof.
  intros Hs. rewrite (suggest_constructed vocabulary md s) by done.
  by destruct Hs as [order [_ ->]].
Qed.

Lemma strip_idemp s : strip (strip s) = strip s.
Proof.
  unfold strip at 1 3.
  assert (Hl : lstrip (strip s) = strip s).
  { unfold strip. destruct (lstrip s) as [|c l] eqn:Hls; [done|].
    assert (Hc : is_space c = false) by (apply (head_lstrip s); by rewrite Hls).
    unfold rstrip. rewrite reverse_cons.
    destruct (decide (lstrip (reverse l) = [])) as [He|Hne].
    - rewrite !lstrip_blank_app by done. simpl. rewrite Hc. simpl.
      by rewrite Hc.
    - rewrite !lstrip_app by done. rewrite reverse_snoc. simpl.
      by rewrite Hc. }
  rewrite Hl. unfold strip, rstrip at 1 2.
  rewrite reverse_involutive.
  assert (Hll : ∀ x, lstrip (lstrip x) = lstrip x).
  { intros x. induction x as [|c x IH]; [done|].
    simpl. destruct (is_space c) eqn:Hc; [done|]. simpl. by rewrite Hc. }
  by rewrite Hll.
Qed.

End suggestions.

(** X9.  A constructed suggester keeps its buckets in step with its
    vocabulary set: the set holds the lowercased non-blank entries; a bucket
    is never empty, has a key of at least 1, holds no word twice and holds
    exactly the vocabulary words of its key's length; so every vocabulary
    word is in the bucket of its length and in no other. *)
Theorem constructed_buckets vocabulary md s :
  constructed vocabulary md s →
  max_dist s = md
  ∧ (∀ t, t ∈ vocab s ↔ ∃ x, x ∈ vocabulary ∧ strip x ≠ [] ∧ t = lower x)
  ∧ (∀ length bucket,
       len_buckets s !! length = Some bucket →
       bucket ≠ [] ∧ 1 ≤ length ∧ NoDup bucket
       ∧ ∀ t, t ∈ bucket ↔ t ∈ vocab s ∧ len t = length)
  ∧ (∀ t, t ∈ vocab s →
       ∃ bucket, len_buckets s !! len t = Some bucket ∧ t ∈ bucket).
Proof.
  intros [order [Horder ->]]. simpl. unfold iterates in Horder.
  assert (Hmem : ∀ t length,
            t ∈ filter (λ t, len t = length) order
            ↔ t ∈ vocab_of vocabulary ∧ len t = length).
  { intros t length.
    rewrite list_elem_of_filter, Horder, elem_of_elements. tauto. }
  split_and!.
  - done.
  - apply elem_of_vocab_of.
  - intros length bucket [Hne ->]%lookup_len_buckets_Some. split_and!.
    + done.
    + destruct (filter (λ t, len t = length) order) as [|t l] eqn:Hf; [done|].
      assert (Ht : t ∈ filter (λ t, len t = length) order)
        by (rewrite Hf; left).
      apply Hmem in Ht as [Ht <-]. apply vocab_of_nonempty in Ht.
      destruct t; [done|]. rewrite len_cons. pose proof (len_nonneg t). lia.
    + apply NoDup_filter. rewrite Horder. apply NoDup_elements.
    + intros t. apply Hmem.
  - intros t Ht.
    destruct (foldl bucket_append ∅ order !! len t) as [bucket|] eqn:Hb.
    + exists bucket. split; [done|].
      apply lookup_len_buckets_Some in Hb as [_ ->]. by apply Hmem.
    + pose proof (lookup_len_buckets order (len t)) as Hd.
      rewrite Hb in Hd. simpl in Hd.
      assert (Hin : t ∈ filter (λ t0, len t0 = len t) order)
        by (by apply Hmem).
      rewrite <- Hd in Hin. by apply elem_of_nil in Hin.
Qed.

Lemma constructed_buckets_witness :
  let voc := [py "Deep"; py " "; py "data"; py "deep"] in
  let s := SpellSuggester_init voc 2 (elements (vocab_of voc)) in
  constructed voc 2 s
  ∧ ∀ t, t ∈ vocab s →
         ∃ bucket, len_buckets s !! len t = Some bucket ∧ t ∈ bucket.
Proof.
  intros voc s.
  assert (Hc : constructed voc 2 s).
  { exists (elements (vocab_of voc)). split; [|reflexivity].
    unfold iterates. reflexivity. }
  split; [exact Hc|].
  exact (proj2 (proj2 (proj2 (constructed_buckets voc 2 s Hc)))).
Defined.

(** X10.  On a constructed suggester, [suggest] returns distinct vocabulary
    words, at most [top_k] of them when [top_k] is not negative; each
    differs from the normalized query, starts with its first character, has
    a length within 1 of its length and a distance to it between 1 and
    [max_dist]. *)
Theorem suggest_sound vocabulary md s w top_k :
  constructed vocabulary md s →
  let w' := strip (lower w) in
  ∃ l, suggest s w top_k = Ok l
       ∧ NoDup l
       ∧ (0 ≤ top_k → len l ≤ top_k)
       ∧ ∀ t, t ∈ l →
              t ∈ vocab s ∧ t ≠ w'
              ∧ head t = head w'
              ∧ Z.abs (len t - len w') ≤ 1
              ∧ ∃ d, levenshtein w' t = Ok d ∧ 1 ≤ d ≤ md.
Proof.
  intros Hs w'. rewrite (suggest_ranked vocabulary md s) by done.
  fold w'. case_bool_decide as Hw; simpl.
  { exists []. split_and!; [done|apply NoDup_nil_2|by intros|].
    by intros t ?%elem_of_nil. }
  case_bool_decide as Hv.
  { exists []. split_and!; [done|apply NoDup_nil_2|by intros|].
    by intros t ?%elem_of_nil. }
  eexists. split_and!; [done| | |].
  - apply slice_to_NoDup, ranked_NoDup.
  - apply slice_to_length.
  - intros t Ht%slice_to_subseteq.
    apply elem_of_ranked in Ht as [Ht (Hr & Hhd & Hd)].
    assert (Hne : t ≠ w') by (by intros ->).
    split_and!; [done..| |].
    + lia.
    + exists (distance w' t). rewrite levenshtein_distance.
      split_and!; [done| |done].
      pose proof (ed_nonneg (reverse w') (reverse t)).
      destruct (decide (distance w' t = 0)) as [Hz%distance_zero|];
        [done|unfold distance in *; lia].
Qed.

Lemma suggest_sound_witness :
  let voc := [py "machine"; py "marine"; py "medicine"] in
  let s := SpellSuggester_init voc 2 (elements (vocab_of voc)) in
  constructed voc 2 s
  ∧ ∃ l, suggest s (py "Mahcine ") 3 = Ok l
         ∧ NoDup l
         ∧ (0 ≤ 3 → len l ≤ 3)
         ∧ ∀ t, t ∈ l →
                t ∈ vocab s ∧ t ≠ py "mahcine"
                ∧ head t = head (py "mahcine")
                ∧ Z.abs (len t - len (py "mahcine")) ≤ 1
                ∧ ∃ d, levenshtein (py "mahcine") t = Ok d ∧ 1 ≤ d ≤ 2.
Proof.
  intros voc s.
  assert (Hc : constructed voc 2 s).
  { exists (elements (vocab_of voc)). split; [|reflexivity].
    unfold iterates. reflexivity. }
  split; [exact Hc|].
  exact (suggest_sound voc 2 s (py "Mahcine ") 3 Hc).
Defined.

(** X11.  With a [max_dist] below 1 a constructed suggester suggests
    nothing, whatever the query. *)
Theorem suggest_max_dist_below_one vocabulary md s w top_k :
  constructed vocabulary md s → md < 1 → suggest s w top_k = Ok [].
Proof.
  intros Hs Hmd. rewrite (suggest_ranked vocabulary md s) by done.
  case_bool_decide as Hw; [done|]. simpl.
  case_bool_decide as Hv; [done|].
  destruct (ranked (vocab s) md (strip (lower w))) as [|t l] eqn:Hr.
  { unfold slice_to. simpl. destruct (bool_decide _); by rewrite take_nil. }
  assert (Ht : t ∈ ranked (vocab s) md (strip (lower w)))
    by (rewrite Hr; left).
  apply elem_of_ranked in Ht as [Ht (_ & _ & Hd)].
  pose proof (ed_nonneg (reverse (strip (lower w))) (reverse t)).
  assert (Hz : distance (strip (lower w)) t = 0)
    by (unfold distance in *; lia).
  apply distance_zero in Hz. by subst t.
Qed.

Lemma suggest_max_dist_below_one_witness :
  let voc := [py "machine"; py "marine"] in
  let s := SpellSuggester_init voc 0 (elements (vocab_of voc)) in
  constructed voc 0 s ∧ 0 < 1 ∧ suggest s (py "machin") 3 = Ok [].
Proof.
  intros voc s.
  assert (Hc : constructed voc 0 s).
  { exists (elements (vocab_of voc)). split; [|reflexivity].
    unfold iterates. reflexivity. }
  assert (Hmd : 0 < 1) by lia.
  split_and!; [exact Hc|exact Hmd|].
  exact (suggest_max_dist_below_one voc 0 s (py "machin") 3 Hc Hmd).
Defined.

(** X12.  For a query that is not a vocabulary word and a [top_k] that is
    not negative, [suggest] returns the best candidates first: the list is
    strictly increasing in (distance, term), and a vocabulary word that
    passes the first-letter, length and distance tests is either in the
    list or ranked after all [top_k] words of the list. *)
Theorem suggest_best_first vocabulary md s w top_k :
  constructed vocabulary md s →
  let w' := strip (lower w) in
  w' ∉ vocab s →
  0 ≤ top_k →
  ∃ l, suggest s w top_k = Ok l
       ∧ StronglySorted (ranks_before w') l
       ∧ ∀ t d, t ∈ vocab s →
                head t = head w' →
                Z.abs (len t - len w') ≤ 1 →
                levenshtein w' t = Ok d → d ≤ md →
                t ∈ l ∨ (len l = top_k ∧ ∀ u, u ∈ l → ranks_before w' u t).
Proof.
  intros Hs w' Hv Hk. rewrite (suggest_ranked vocabulary md s) by done.
  fold w'. rewrite (bool_decide_eq_false_2 (w' ∈ _)) by done.
  rewrite orb_false_r.
  assert (Hvoc : ∀ t, t ∈ vocab s → t ≠ []).
  { destruct Hs as [order [_ ->]]. apply vocab_of_nonempty. }
  case_bool_decide as Hw.
  { exists []. split_and!; [done|constructor|].
    intros t d Ht Hhd _ _ _. rewrite Hw in Hhd.
    destruct t; [|done]. by destruct (Hvoc [] Ht). }
  rewrite <- (Z2Nat.id top_k) by done. rewrite slice_to_nat.
  eexists. split_and!; [done| |].
  - apply StronglySorted_take, ranked_sorted.
  - intros t d Ht Hhd Hlen Hlev Hd.
    rewrite levenshtein_distance in Hlev. injection Hlev as <-.
    assert (Hin : t ∈ ranked (vocab s) md w').
    { apply elem_of_ranked. split; [done|]. split_and!; [|lia|done..].
      pose proof (Hvoc t Ht). destruct t; [done|].
      rewrite len_cons in *. pose proof (len_nonneg t). lia. }
    pose proof (ranked_sorted (vocab s) md w') as Hsorted.
    rewrite <- (take_drop (Z.to_nat top_k) (ranked (vocab s) md w'))
      in Hin, Hsorted.
    apply elem_of_app in Hin as [Hin|Hin]; [by left|right].
    apply StronglySorted_app in Hsorted as (Hbefore & _ & _).
    split.
    + unfold len. rewrite length_take.
      assert (length (drop (Z.to_nat top_k) (ranked (vocab s) md w')) ≠ 0%nat)
        by (intros ?%nil_length_inv; rewrite H in Hin; by apply elem_of_nil in Hin).
      rewrite length_drop in *. lia.
    + intros u Hu. by apply Hbefore.
Qed.

Lemma suggest_best_first_witness :
  let voc := [py "machine"; py "marine"; py "medicine"] in
  let s := SpellSuggester_init voc 2 (elements (vocab_of voc)) in
  constructed voc 2 s
  ∧ (strip (lower (py "mahcine")) ∉ vocab s)
  ∧ 0 ≤ 1
  ∧ ∃ l, suggest s (py "mahcine") 1 = Ok l
         ∧ StronglySorted (ranks_before (py "mahcine")) l
         ∧ ∀ t d, t ∈ vocab s →
                  head t = head (py "mahcine") →
                  Z.abs (len t - len (py "mahcine")) ≤ 1 →
                  levenshtein (py "mahcine") t = Ok d → d ≤ 2 →
                  t ∈ l ∨ (len l = 1
                           ∧ ∀ u, u ∈ l → ranks_before (py "mahcine") u t).
Proof.
  intros voc s.
  assert (Hc : constructed voc 2 s).
  { exists (elements (vocab_of voc)). split; [|reflexivity].
    unfold iterates. reflexivity. }
  assert (Hn : strip (lower (py "mahcine")) ∉ vocab s).
  { apply (bool_decide_unpack _). vm_compute. exact I. }
  assert (Hk : 0 ≤ 1) by lia.
  split_and!; [exact Hc|exact Hn|exact Hk|].
  exact (suggest_best_first voc 2 s (py "mahcine") 1 Hc Hn Hk).
Defined.

(** X13.  [suggest] ignores the letter case of the query and the white
    space around it, on every suggester. *)
Theorem suggest_normalizes_query s w top_k :
  suggest s (strip w) top_k = suggest s w top_k
  ∧ suggest s (lower w) top_k = suggest s w top_k.
Proof.
  unfold suggest. split.
  - by rewrite (strip_lower (strip w)), strip_idemp, <- strip_lower.
  - by rewrite lower_lower.
Qed.

(** * Further properties of [handle_input] and of the session loop *)

Section session.



Lemma suggest_at_most s w top_k :
  0 ≤ top_k → ∃ l, suggest s w top_k = Ok l ∧ len l ≤ top_k.
Proof.
  intros Hk. rewrite suggest_ok. simpl. destruct (_ || _).
  - exists []. split; [done|]. by simpl.
  - eexists. split; [done|]. by apply slice_to_length.
Qed.

Lemma suggest_constructed_eq vocabulary md s1 s2 w top_k :
  constructed vocabulary md s1 → constructed vocabulary md s2 →
  suggest s1 w top_k = suggest s2 w top_k.
Proof.
  intros H1 H2.
  by rewrite (suggest_constructed vocabulary md s1),
    (suggest_constructed vocabulary md s2).
Qed.

Lemma handle_input_ext text trie s1 s2 :
  (∀ w top_k, suggest s1 w top_k = suggest s2 w top_k) →
  handle_input text trie s1 = handle_input text trie s2.
Proof. intros Hs. unfold handle_input. by rewrite Hs. Qed.

Lemma main_loop_ext trie s1 s2 lines :
  (∀ w top_k, suggest s1 w top_k = suggest s2 w top_k) →
  main_loop trie s1 lines = main_loop trie s2 lines.
Proof.
  intros Hs. induction lines as [|line lines IH]; [done|].
  simpl. by rewrite (handle_input_ext _ trie s1 s2), IH.
Qed.

Lemma handle_input_strip text trie s :
  handle_input (strip text) trie s = handle_input text trie s.
Proof. unfold handle_input. by rewrite strip_idemp. Qed.

Lemma handle_input_ok text trie s :
  ∃ shown, handle_input text trie s = Ok shown.
Proof.
  rewrite handle_input_guard. simpl. case_bool_decide; [by eexists|].
  case_bool_decide; [|by eexists].
  destruct (suggest_at_most s (default [] (last (split (strip text)))) 3)
    as (l & -> & _); [lia|].
  by eexists.
Qed.

End session.



(** X15.  The result of a session does not depend on the order in which
    the interpreter iterates the vocabulary set: two suggesters constructed
    from the same vocabulary give the same [handle_input] for every text,
    and [main] gives the same session for every two iteration orders. *)
Theorem session_iteration_order vocabulary md s1 s2 order1 order2 :
  (constructed vocabulary md s1 → constructed vocabulary md s2 →
   ∀ text trie, handle_input text trie s1 = handle_input text trie s2)
  ∧ (iterates (vocab_of sample_vocabulary) order1 →
     iterates (vocab_of sample_vocabulary) order2 →
     ∀ lines, main order1 lines = main order2 lines).
Proof.
  split.
  - intros H1 H2 text trie. apply handle_input_ext. intros.
    by apply (suggest_constructed_eq vocabulary md).
  - intros H1 H2 lines. unfold main. apply main_loop_ext. intros.
    apply (suggest_constructed_eq sample_vocabulary 2);
      [by exists order1|by exists order2].
Qed.

Lemma session_iteration_order_witness :
  let voc := [py "then"; py "than"] in
  let s1 := SpellSuggester_init voc 2 [py "then"; py "than"] in
  let s2 := SpellSuggester_init voc 2 [py "than"; py "then"] in
  constructed voc 2 s1 ∧ constructed voc 2 s2
  ∧ handle_input (py "the") Trie_new s1 = handle_input (py "the") Trie_new s2.
Proof.
  intros voc s1 s2.
  assert (H1 : constructed voc 2 s1).
  { exists [py "then"; py "than"]. split; [|reflexivity].
    unfold iterates. vm_compute. reflexivity. }
  assert (H2 : constructed voc 2 s2).
  { exists [py "than"; py "then"]. split; [|reflexivity].
    unfold iterates. vm_compute. apply perm_swap. }
  split_and!; [exact H1|exact H2|].
  exact (proj1 (session_iteration_order voc 2 s1 s2 [] []) H1 H2
           (py "the") Trie_new).
Defined.

(** X16.  The session loop never ends on an uncaught exception of
    [handle_input].  It shows, for each line before the first quit command,
    what [handle_input] gives for that line as typed; it ends with [Bye] at
    the first line that is "quit", "exit" or "q" up to case and surrounding
    white space, ignoring the lines after it, and with [EOFError] when no
    such line comes. *)
Theorem main_loop_session trie spell lines :
  ∃ before after,
    lines = before ++ after
    ∧ Forall (λ line, is_quit (strip line) = false) before
    ∧ Forall2 (λ line shown, handle_input line trie spell = Ok shown)
              before (main_loop trie spell lines).1
    ∧ ((after = [] ∧ (main_loop trie spell lines).2 = EOFError)
       ∨ (∃ q rest, after = q :: rest ∧ is_quit (strip q) = true
                    ∧ (main_loop trie spell lines).2 = Bye)).
Proof.
  induction lines as [|line lines IH].
  - exists [], []. split_and!; [done|constructor|constructor|by left].
  - simpl. destruct (is_quit (strip line)) eqn:Hq.
    + exists [], (line :: lines).
      split_and!; [done|constructor|constructor|].
      right. by exists line, lines.
    + destruct (handle_input_ok (strip line) trie spell) as [shown Hshown].
      rewrite Hshown.
      destruct IH as (before & after & -> & Hnq & Hall & Hend).
      destruct (main_loop trie spell (before ++ after)) as [later e].
      simpl in *. exists (line :: before), after.
      split_and!; [done|by constructor| |done].
      constructor; [|done]. by rewrite <- handle_input_strip.
Qed.

(** X17.  [insert_all] of Search_Suggestions.py is [insert_all] of Trie.py
    on the entries that are not blank, and the same on a list without
    blank entries.  A trie it fills from the empty trie stores at every
    terminal node the path to the node, which is lowercase and not
    empty. *)
Theorem insert_all_skips_blank self words :
  Search_Suggestions.insert_all self words
  = Trie_py.insert_all self (filter (λ w, strip w ≠ []) words)
  ∧ (Forall (λ w, strip w ≠ []) words →
     Search_Suggestions.insert_all self words = Trie_py.insert_all self words)
  ∧ (∀ path node,
       walk (root (Search_Suggestions.insert_all Trie_new words)) path
       = Some node →
       is_end_of_word node = true →
       word node = Some path ∧ is_lowercase path ∧ path ≠ []).
Proof.
  split_and!.
  - apply insert_all_filter.
  - intros Hall. rewrite insert_all_filter. unfold Trie_py.insert_all.
    f_equal. induction Hall as [|w words Hw _ IH]; [done|].
    rewrite filter_cons. case_decide; [by rewrite IH|done].
  - apply insert_all_terminal_nonempty.
Qed.

Lemma insert_all_skips_blank_witness :
  Forall (λ w, strip w ≠ []) [py "deep"; py "data"]
  ∧ Search_Suggestions.insert_all Trie_new [py "deep"; py "data"]
    = Trie_py.insert_all Trie_new [py "deep"; py "data"].
Proof.
  assert (Hall : Forall (λ w, strip w ≠ []) [py "deep"; py "data"])
    by (repeat constructor; discriminate).
  split; [exact Hall|].
  exact (proj1 (proj2 (insert_all_skips_blank Trie_new _)) Hall).
Defined.
